(** * Song-Analysis: the incremental enrichment pipeline

    A shallow embedding of the three pipeline stages of the repository
    (SCdownloading.py, jsonsorting.py, deeperdata.py) and of the feature
    extractors they call, with the properties of the specification stated
    and settled over the embedding.

    Third-party calls (the SoundCloud resolver, HTTP, librosa, numpy
    arithmetic on floats) are the parameters of the development: the code
    under study is the glue around them.  A call that raises gives [None];
    a file holds malformed text or a JSON array of objects; writing a file
    succeeds. *)

From Stdlib Require Import ZArith String List Lia Bool Permutation Sorted Floats.
From stdpp Require Import base list strings gmap.

Set Warnings "-register-all".

Local Open Scope string_scope.
Local Open Scope list_scope.

(** ** Python dictionaries

    A [dict] keeps its keys in insertion order; keys are unique.  Records
    are dictionaries with string keys (they come from [json.load]). *)

Section Dict.
Context {A : Type}.

(** [d.get(k)], with [None] for a missing key. *)
Fixpoint dict_get (k : string) (d : list (string * A)) : option A :=
  match d with
  | [] => None
  | (k', v) :: d' => if String.eqb k' k then Some v else dict_get k d'
  end.

(** [k in d] *)
Definition dict_has (k : string) (d : list (string * A)) : bool :=
  match dict_get k d with Some _ => true | None => false end.

(** [d[k] = v]: an existing key keeps its position, a new key goes last. *)
Fixpoint dict_set (k : string) (v : A) (d : list (string * A)) : list (string * A) :=
  match d with
  | [] => [(k, v)]
  | (k', v') :: d' =>
      if String.eqb k' k then (k, v) :: d' else (k', v') :: dict_set k v d'
  end.

End Dict.

(** ** Python sequences *)

(** [l[i:j]] for [0 <= i <= j]: out-of-range bounds are clipped. *)
Definition py_slice {A : Type} (l : list A) (i j : nat) : list A :=
  take (j - i) (drop i l).

(** [range(0, stop, step)] for a positive [step]: it has
    [ceil(stop / step)] elements. *)
Definition py_range_step (stop step : nat) : list nat :=
  map (fun q => q * step)%nat (seq 0 ((stop + step - 1) / step)).

(** [xs[mask]] for a boolean mask of the length of [xs]. *)
Definition mask_select {A : Type} (xs : list A) (mask : list bool) : list A :=
  map fst (List.filter snd (combine xs mask)).

(** [l[-1]], which raises [IndexError] on an empty sequence. *)
Definition py_last {A : Type} (l : list A) : option A := last l.

Section Pipeline.

(** ** Parameters: floats *)

(** Python's [float] and numpy's floating scalars. *)
Variable F : Type.
(** [x <= y], [x < y], [x == y] on floats; [x == n] for an integer [n];
    the constant [0.0]; [numpy.mean] of a one-dimensional array. *)
Variable F_leb : F -> F -> bool.
Variable F_ltb : F -> F -> bool.
Variable F_eqb : F -> F -> bool.
Variable F_eq_int : F -> Z -> bool.
Variable F_zero : F.
Variable np_mean : list F -> F.

(** A NaN is the one float that is not [<=] itself. *)
Definition F_isnan (x : F) : bool := negb (F_leb x x).

(** ** Values

    What [json.load] produces and what the stages store. *)

Inductive value : Type :=
| VNone
| VBool (b : bool)
| VInt (n : Z)
| VFloat (x : F)
| VStr (s : string)
| VList (l : list value)
| VDict (d : list (string * value)).

(** Python truthiness, as [if not x] and [if bpm and key] test it. *)
Definition truthy (v : value) : bool :=
  match v with
  | VNone => false
  | VBool b => b
  | VInt n => negb (n =? 0)%Z
  | VFloat x => negb (F_eqb x F_zero)
  | VStr s => negb (String.eqb s "")
  | VList l => match l with [] => false | _ => true end
  | VDict d => match d with [] => false | _ => true end
  end.

(** Python [==] on values: [bool] is a subtype of [int], numbers compare
    by value across [int] and [float], containers compare by content. *)
Fixpoint py_eq (a b : value) {struct a} : bool :=
  match a, b with
  | VNone, VNone => true
  | VBool x, VBool y => Bool.eqb x y
  | VBool x, VInt n => (Z.b2z x =? n)%Z
  | VBool x, VFloat g => F_eq_int g (Z.b2z x)
  | VInt n, VBool y => (n =? Z.b2z y)%Z
  | VInt n, VInt m => (n =? m)%Z
  | VInt n, VFloat g => F_eq_int g n
  | VFloat f, VBool y => F_eq_int f (Z.b2z y)
  | VFloat f, VInt m => F_eq_int f m
  | VFloat f, VFloat g => F_eqb f g
  | VStr s, VStr t => String.eqb s t
  | VList l, VList m =>
      (fix go (l m : list value) : bool :=
         match l, m with
         | [], [] => true
         | x :: l', y :: m' => py_eq x y && go l' m'
         | _, _ => false
         end) l m
  | VDict d, VDict e =>
      Nat.eqb (length d) (length e) &&
      (fix go (d : list (string * value)) : bool :=
         match d with
         | [] => true
         | (k, v) :: d' =>
             match dict_get k e with
             | Some w => py_eq v w
             | None => false
             end && go d'
         end) d
  | _, _ => false
  end.

(** A record of the store is a dictionary. *)
Definition record : Type := list (string * value).

(** [r == c] on two records. *)
Definition record_eq (r c : record) : bool := py_eq (VDict r) (VDict c).

(** [c in l] for a list of records: some element equals [c]. *)
Definition record_in (c : record) (l : list record) : bool :=
  existsb (fun r => record_eq r c) l.

(** [hash(v)] raises [TypeError] on lists and dictionaries. *)
Definition hashable (v : value) : bool :=
  match v with
  | VList _ | VDict _ => false
  | _ => true
  end.

(** ** Feature extractors (deeperdata.py, jsonsorting.py) *)

(** Decoded audio: the sample buffer [y] and the sample rate [sr]. *)
Variable Samples : Type.
Variable Mfcc : Type.

(** librosa, with [None] for a raised exception. *)
Variable beat_track : Samples -> Z -> option (F * list Z).
Variable chroma_cqt : Samples -> Z -> option (list (list F)).
Variable feature_mfcc : Samples -> Z -> option Mfcc.
Variable segment_agglomerative : Mfcc -> Z -> option (list Z).
Variable feature_rms : Samples -> Z -> Z -> option (list F).
(** [librosa.frames_to_time(frame, sr=sr, hop_length=hop)] *)
Variable frames_to_time : Z -> Z -> Z -> F.

(** The default [hop_length] of librosa. *)
Definition default_hop : Z := 512.

(** [numpy.argmax] on floats: the first maximum, a NaN counting as the
    maximum.  [mp] is the running maximum, found at index [best]; [i] is
    the index of the head of [l]. *)
Fixpoint argmax_scan (mp : F) (best i : nat) (l : list F) : nat :=
  match l with
  | [] => best
  | x :: l' =>
      if F_leb x mp then argmax_scan mp best (S i) l'
      else if F_isnan x then i
      else argmax_scan x i (S i) l'
  end.

(** [a.argmax()], which raises [ValueError] on an empty array. *)
Definition np_argmax (a : list F) : option nat :=
  match a with
  | [] => None
  | x :: l => Some (if F_isnan x then 0%nat else argmax_scan x 0 1 l)
  end.

Definition key_mapping : list string :=
  ["C"; "C#"; "D"; "D#"; "E"; "F"; "F#"; "G"; "G#"; "A"; "A#"; "B"].

(** jsonsorting.py, lines 70-78 (and urltesting.py, 64-74):
    [key_mapping[chroma.mean(axis=1).argmax()]]; the chroma matrix is the
    list of its rows, one per pitch class. *)
Definition estimate_key (chroma : list (list F)) : option string :=
  key_index ← np_argmax (map np_mean chroma);
  key_mapping !! key_index.

(** The frames of [rms] whose time lies in [[start_time, end_time)]. *)
Definition section_frames (rms frame_times : list F) (start_time end_time : F) : list F :=
  mask_select rms
    (map (fun t => F_leb start_time t && F_ltb t end_time) frame_times).

(** [float(np.mean(section_energy)) if len(section_energy) > 0 else 0.0] *)
Definition average_energy (section_energy : list F) : F :=
  if (0 <? length section_energy)%nat then np_mean section_energy else F_zero.

(** The loop of [extract_energy_by_section]: [i] is the index of the head
    of [rest] in [segment_times]. *)
Fixpoint energy_loop (rms frame_times segment_times : list F) (i : nat)
    (rest : list F) : option (list (F * F)) :=
  match rest with
  | [] => Some []
  | start_time :: rest' =>
      end_time ← (if (Z.of_nat i <? Z.of_nat (length segment_times) - 1)%Z
                  then segment_times !! (i + 1)%nat
                  else py_last frame_times);
      let section_energy := section_frames rms frame_times start_time end_time in
      tl ← energy_loop rms frame_times segment_times (S i) rest';
      Some ((start_time, average_energy section_energy) :: tl)
  end.

(** [range(len(rms))] mapped to times. *)
Definition frame_times_of (rms : list F) (sr hop_length : Z) : list F :=
  map (fun i => frames_to_time sr hop_length (Z.of_nat i)) (seq 0 (length rms)).

Definition extract_energy_by_section (y : Samples) (sr : Z) (segment_times : list F)
    (frame_length hop_length : Z) : option (list (F * F)) :=
  rms ← feature_rms y frame_length hop_length;
  energy_loop rms (frame_times_of rms sr hop_length) segment_times 0 segment_times.

Record rhythm := { tempo : F; beat_times : list F }.

Definition extract_rhythm (y : Samples) (sr : Z) : option rhythm :=
  '(tempo, beat_frames) ← beat_track y sr;
  Some {| tempo := tempo;
          beat_times := map (frames_to_time sr default_hop) beat_frames |}.

Record structure := { sections : list F; bars : list (list F) }.

(** Line 87: [[beat_frames[i:i + bar_length] for i in range(0, len(beat_frames), bar_length)]] *)
Definition bar_groups (beat_frames : list Z) (bar_length : nat) : list (list Z) :=
  map (fun i => py_slice beat_frames i (i + bar_length))
      (py_range_step (length beat_frames) bar_length).

Definition extract_structure (y : Samples) (sr : Z) (num_sections : Z) : option structure :=
  mfcc ← feature_mfcc y sr;
  boundaries ← segment_agglomerative mfcc num_sections;
  let segment_times := map (frames_to_time sr default_hop) boundaries in
  '(tempo, beat_frames) ← beat_track y sr;
  let bar_length := 4%nat in
  let bars := bar_groups beat_frames bar_length in
  let bar_times := map (map (frames_to_time sr default_hop)) bars in
  Some {| sections := segment_times; bars := bar_times |}.

Record features := { energy : list (F * F); f_rhythm : rhythm; f_structure : structure }.

Definition analyze_song_deep (y : Samples) (sr : Z) : option features :=
  structure ← extract_structure y sr 4;
  rhythm ← extract_rhythm y sr;
  energy ← extract_energy_by_section y sr (sections structure) 2048 512;
  Some {| energy := energy; f_rhythm := rhythm; f_structure := structure |}.

(** The dictionary stored under ["features"]; the pairs of [energy] are
    tuples, which [json.dump] writes as arrays. *)
Definition features_value (f : features) : value :=
  VDict
    [("energy", VList (map (fun p => VList [VFloat (fst p); VFloat (snd p)]) (energy f)));
     ("rhythm", VDict [("tempo", VFloat (tempo (f_rhythm f)));
                       ("beat_times", VList (map VFloat (beat_times (f_rhythm f))))]);
     ("structure", VDict [("sections", VList (map VFloat (sections (f_structure f))));
                          ("bars", VList (map (fun b => VList (map VFloat b))
                                              (bars (f_structure f))))])].

(** ** The world outside: resolver, HTTP, files, console *)

Variable Bytes : Type.
(** The state of the streaming service and the network. *)
Variable World : Type.

(** What [client.resolve] gives for a playlist: its tracks are named by
    their [permalink_url]. *)
Record playlist := { pl_title : string; pl_username : string; pl_tracks : list string }.

(** What [client.resolve] gives for a track. *)
Record track_info := {
  t_title : string;
  t_username : string;
  t_permalink_url : string;
  t_duration : Z;
  t_genre : option string
}.

(** Each call may change the world; [None] is a raised exception.
    [api_stream_url] is [api.resolve(track_url).get_stream_url()], whose
    result is a string or [None]; [requests_get] gives the status code and
    the body. *)
Variable api_resolve_playlist : World -> string -> World * option playlist.
Variable api_resolve_track : World -> string -> World * option track_info.
Variable api_stream_url : World -> value -> World * option (option string).
Variable requests_get : World -> string -> World * option (Z * Bytes).
Variable librosa_load : Bytes -> option (Samples * Z).

(** A path holds malformed text or a JSON array of objects; a path absent
    from the map does not exist. *)
Inductive file : Type :=
| Malformed
| Json (records : list record).

(** Console lines, named after the statement that prints them. *)
Inductive msg : Type :=
| MsgPlaylist (index total : nat) (title username : string)
| MsgTrackCount (n : nat)
| MsgTrack (index total : nat)
| MsgFetched (title : string)
| MsgTrackUrl (url : string)
| MsgTrackError (permalink : string)
| MsgPlaylistSaved (title : string)
| MsgPlaylistError (url : string)
| MsgFinal (path : string)
| MsgNotFound (path : string)
| MsgDecodeError (path : string)
| MsgGenre (genre : value) (n : nat)
| MsgNoTrackUrl
| MsgAnalyzing
| MsgResolveFailed (url : value)
| MsgNoStream
| MsgBadStatus (code : Z)
| MsgAnalysisError
| MsgExtracted (bpm key : value)
| MsgAnalysisFailed
| MsgSaved (path : string)
| MsgSong (index total : nat)
| MsgFeaturesAdded
| MsgCleaned (path : string) (removed : nat).

(** What a run does to the outside, in order. *)
Inductive event : Type :=
| EResolve (url : value)
| EGet (url : string)
| EWrite (path : string)
| ESleep (seconds : Z)
| EPrint (m : msg).

Record state := { world : World; fs : gmap string file; log : list event }.

Inductive exn : Type := FileNotFoundError | JSONDecodeError | TypeError.

Inductive result (A : Type) : Type :=
| Done (a : A)
| Raised (e : exn).
Arguments Done {A} a.
Arguments Raised {A} e.

(** Computations: state passing, with exceptions that propagate. *)
Definition M (A : Type) : Type := state -> result A * state.

#[local] Instance M_ret : MRet M := fun A a s => (Done a, s).
#[local] Instance M_bind : MBind M := fun A B f m s =>
  match m s with
  | (Done a, s') => f a s'
  | (Raised e, s') => (Raised e, s')
  end.

Definition emit (e : event) (s : state) : state :=
  {| world := world s; fs := fs s; log := log s ++ [e] |}.

Definition print (m : msg) : M unit := fun s => (Done tt, emit (EPrint m) s).

Definition sleep (seconds : Z) : M unit := fun s => (Done tt, emit (ESleep seconds) s).

(** Lifts a call on the world, recording the event [e]. *)
Definition call {A : Type} (e : event) (f : World -> World * A) : M A := fun s =>
  let (w, a) := f (world s) in
  (Done a, {| world := w; fs := fs s; log := log s ++ [e] |}).

(** Nothing to do. *)
Definition pass : M unit := mret tt.

Definition raise {A : Type} (e : exn) : M A := fun s => (Raised e, s).

(** [os.path.exists(path)] *)
Definition path_exists (path : string) : M bool := fun s =>
  (Done (match fs s !! path with Some _ => true | None => false end), s).

(** [json.load(open(path, "r"))] *)
Definition json_load (path : string) : M (list record) := fun s =>
  match fs s !! path with
  | None => (Raised FileNotFoundError, s)
  | Some Malformed => (Raised JSONDecodeError, s)
  | Some (Json records) => (Done records, s)
  end.

(** [json.dump(records, open(path, "w"), indent=4)]: a full overwrite. *)
Definition json_dump (path : string) (records : list record) : M unit := fun s =>
  (Done tt,
   {| world := world s; fs := <[path := Json records]> (fs s);
      log := log s ++ [EWrite path] |}).

(** A [for] loop that carries the local variable [S] from one iteration
    to the next. *)
Fixpoint fold_m {A S : Type} (body : S -> A -> M S) (l : list A) (s : S) : M S :=
  match l with
  | [] => mret s
  | x :: l' => s' ← body s x; fold_m body l' s'
  end.

(** [enumerate(l, start=1)] *)
Definition enumerate1 {A : Type} (l : list A) : list (nat * A) :=
  combine (seq 1 (length l)) l.

(** ** Stage 1: collect (SCdownloading.py) *)

(** Lines 42-48. *)
Definition new_track (t : track_info) : record :=
  [("title", VStr (t_title t));
   ("artist", VStr (t_username t));
   ("track_url", VStr (t_permalink_url t));
   ("duration", VInt (t_duration t));
   ("genre", match t_genre t with Some g => VStr g | None => VNone end)].

(** Lines 51-52: [if new_track not in all_tracks: all_tracks.append(new_track)] *)
Definition merge_insert (all_tracks : list record) (candidate : record) : list record :=
  if record_in candidate all_tracks then all_tracks else all_tracks ++ [candidate].

(** The body of the inner loop, lines 37-57. *)
Definition track_step (total : nat) (all_tracks : list record) (it : nat * string)
    : M (list record) :=
  let (track_index, permalink) := it in
  print (MsgTrack track_index total);;
  r ← call (EResolve (VStr permalink)) (fun w => api_resolve_track w permalink);
  match r with
  | Some resolved_track =>
      let candidate := new_track resolved_track in
      (if record_in candidate all_tracks then pass
       else print (MsgFetched (t_title resolved_track));;
            print (MsgTrackUrl (t_permalink_url resolved_track)));;
      mret (merge_insert all_tracks candidate)
  | None =>
      print (MsgTrackError permalink);;
      mret all_tracks
  end.

(** The body of the outer loop, lines 30-65. *)
Definition playlist_step (output_file : string) (total : nat) (all_tracks : list record)
    (it : nat * string) : M (list record) :=
  let (playlist_index, playlist_url) := it in
  r ← call (EResolve (VStr playlist_url)) (fun w => api_resolve_playlist w playlist_url);
  match r with
  | Some pl =>
      print (MsgPlaylist playlist_index total (pl_title pl) (pl_username pl));;
      print (MsgTrackCount (length (pl_tracks pl)));;
      all_tracks' ← fold_m (track_step (length (pl_tracks pl)))
                       (enumerate1 (pl_tracks pl)) all_tracks;
      json_dump output_file all_tracks';;
      print (MsgPlaylistSaved (pl_title pl));;
      mret all_tracks'
  | None =>
      print (MsgPlaylistError playlist_url);;
      mret all_tracks
  end.

(** Lines 28-67: the loop over the playlists, from the loaded store. *)
Definition collect_playlists (playlist_urls : list string) (output_file : string)
    (all_tracks : list record) : M unit :=
  _ ← fold_m (playlist_step output_file (length playlist_urls))
        (enumerate1 playlist_urls) all_tracks;
  print (MsgFinal output_file).

Definition url_collection (playlist_urls : list string) (output_file : string) : M unit :=
  present ← path_exists output_file;
  (if (present : bool) then pass else json_dump output_file []);;
  all_tracks ← json_load output_file;
  collect_playlists playlist_urls output_file all_tracks.

(** ** Stage 2: BPM and key (jsonsorting.py) *)

(** The [try] around the load, shared by [process_songs],
    [clean_analyzed_songs] and [analyze_songs]: both failures are printed
    and the function returns. *)
Definition load_or_report (input_file : string) : M (option (list record)) := fun s =>
  match json_load input_file s with
  | (Done songs, s') => (Done (Some songs), s')
  | (Raised FileNotFoundError, s') =>
      (_ ← print (MsgNotFound input_file); mret None) s'
  | (Raised JSONDecodeError, s') =>
      (_ ← print (MsgDecodeError input_file); mret None) s'
  | (Raised e, s') => (Raised e, s')
  end.

(** [sorted_songs[genre].append(song)]: the groups keep the order in which
    their genre first appears.  A group holds the positions of its songs
    in [songs]: the dictionaries in the groups are the very objects of
    [songs], so an update through a group is seen by [songs]. *)
Fixpoint group_add (genre : value) (i : nat) (sorted_songs : list (value * list nat))
    : list (value * list nat) :=
  match sorted_songs with
  | [] => [(genre, [i])]
  | (g, members) :: rest =>
      if py_eq g genre then (g, members ++ [i]) :: rest
      else (g, members) :: group_add genre i rest
  end.

(** [song.get("genre", "Unknown")] *)
Definition genre_of (song : record) : value :=
  match dict_get "genre" song with Some g => g | None => VStr "Unknown" end.

(** The loop of [sort_songs_by_genre]; [None] is the [TypeError] of an
    unhashable genre. *)
Fixpoint sort_loop (i : nat) (songs : list record) (sorted_songs : list (value * list nat))
    : option (list (value * list nat)) :=
  match songs with
  | [] => Some sorted_songs
  | song :: rest =>
      let genre := genre_of song in
      if hashable genre then sort_loop (S i) rest (group_add genre i sorted_songs)
      else None
  end.

Definition sort_songs_by_genre (songs : list record) : M (list (value * list nat)) :=
  match sort_loop 0 songs [] with
  | Some sorted_songs => mret sorted_songs
  | None => raise TypeError
  end.

(** [get_stream_url] of jsonsorting.py and of deeperdata.py. *)
Definition get_stream_url (track_url : value) : M (option string) :=
  r ← call (EResolve track_url) (fun w => api_stream_url w track_url);
  match r with
  | Some stream_url => mret stream_url
  | None => print (MsgResolveFailed track_url);; mret None
  end.

(** Lines 65-80 of [analyze_song]: decode, tempo, key. *)
Definition bpm_and_key (content : Bytes) : option (F * string) :=
  '(y, sr) ← librosa_load content;
  '(tempo, _) ← beat_track y sr;
  chroma ← chroma_cqt y sr;
  key ← estimate_key chroma;
  Some (tempo, key).

(** [analyze_song]: [(float(tempo), key)], or [(None, None)] on a status
    other than 200 and on any exception. *)
Definition analyze_song (stream_url : string) : M (value * value) :=
  r ← call (EGet stream_url) (fun w => requests_get w stream_url);
  match r with
  | Some (status_code, content) =>
      if negb (status_code =? 200)%Z
      then print (MsgBadStatus status_code);; mret (VNone, VNone)
      else match bpm_and_key content with
           | Some (tempo, key) => mret (VFloat tempo, VStr key)
           | None => print MsgAnalysisError;; mret (VNone, VNone)
           end
  | None => print MsgAnalysisError;; mret (VNone, VNone)
  end.

(** [song.get("track_url")] *)
Definition track_url_of (song : record) : value :=
  match dict_get "track_url" song with Some u => u | None => VNone end.

(** The body of the inner loop of [process_songs], lines 114-143, on the
    song at position [i]. *)
Definition process_song (output_file : string) (songs : list record) (i : nat)
    : M (list record) :=
  match songs !! i with
  | None => mret songs
  | Some song =>
      let track_url := track_url_of song in
      if negb (truthy track_url) then print MsgNoTrackUrl;; mret songs
      else
        print MsgAnalyzing;;
        stream_url ← get_stream_url track_url;
        match stream_url with
        | Some url =>
            if negb (truthy (VStr url)) then print MsgNoStream;; mret songs
            else
              '(bpm, key) ← analyze_song url;
              songs' ← (if truthy bpm && truthy key
                        then print (MsgExtracted bpm key);;
                             mret (<[i := dict_set "key" key (dict_set "bpm" bpm song)]> songs)
                        else print MsgAnalysisFailed;; mret songs);
              json_dump output_file songs';;
              print (MsgSaved output_file);;
              sleep 1;;
              mret songs'
        | None => print MsgNoStream;; mret songs
        end
  end.

(** The body of the outer loop, lines 111-143. *)
Definition process_genre (output_file : string) (songs : list record)
    (group : value * list nat) : M (list record) :=
  print (MsgGenre (fst group) (length (snd group)));;
  fold_m (process_song output_file) (snd group) songs.

(** Lines 107-143: grouping and the loops, from the loaded songs. *)
Definition process_loaded (output_file : string) (songs : list record) : M unit :=
  sorted_songs ← sort_songs_by_genre songs;
  _ ← fold_m (process_genre output_file) sorted_songs songs;
  pass.

Definition process_songs (input_file output_file : string) : M unit :=
  loaded ← load_or_report input_file;
  match loaded with
  | None => pass
  | Some songs => process_loaded output_file songs
  end.

(** Line 166: [[song for song in songs if "bpm" in song and "key" in song]] *)
Definition cleaned_songs (songs : list record) : list record :=
  List.filter (fun song => dict_has "bpm" song && dict_has "key" song) songs.

(** Lines 165-174: filter and save, from the loaded songs. *)
Definition clean_loaded (output_file : string) (songs : list record) : M unit :=
  let cleaned := cleaned_songs songs in
  json_dump output_file cleaned;;
  print (MsgCleaned output_file (length songs - length cleaned)).

Definition clean_analyzed_songs (input_file output_file : string) : M unit :=
  loaded ← load_or_report input_file;
  match loaded with
  | None => pass
  | Some songs => clean_loaded output_file songs
  end.

(** ** Stage 3: deep analysis (deeperdata.py) *)

(** Lines 176-180: decode and run the extractors. *)
Definition deep_analysis (content : Bytes) : option features :=
  '(y, sr) ← librosa_load content;
  analyze_song_deep y sr.

(** The body of the loop of [analyze_songs], lines 155-194. *)
Definition analyze_step (output_file : string) (total : nat) (songs : list record)
    (idx : nat) : M (list record) :=
  match songs !! idx with
  | None => mret songs
  | Some song =>
      print (MsgSong (idx + 1) total);;
      let track_url := track_url_of song in
      if negb (truthy track_url) then print MsgNoTrackUrl;; mret songs
      else
        stream_url ← get_stream_url track_url;
        match stream_url with
        | Some url =>
            if negb (truthy (VStr url)) then print MsgNoStream;; mret songs
            else
              r ← call (EGet url) (fun w => requests_get w url);
              match r with
              | Some (status_code, content) =>
                  if negb (status_code =? 200)%Z
                  then print (MsgBadStatus status_code);; mret songs
                  else match deep_analysis content with
                       | Some f =>
                           let songs' :=
                             <[idx := dict_set "features" (features_value f) song]> songs in
                           print MsgFeaturesAdded;;
                           json_dump output_file songs';;
                           print (MsgSaved output_file);;
                           sleep 1;;
                           mret songs'
                       | None => print MsgAnalysisError;; mret songs
                       end
              | None => print MsgAnalysisError;; mret songs
              end
        | None => print MsgNoStream;; mret songs
        end
  end.

(** Lines 155-194: the loop, from the loaded songs. *)
Definition analyze_loaded (output_file : string) (songs : list record) : M unit :=
  _ ← fold_m (analyze_step output_file (length songs)) (seq 0 (length songs)) songs;
  pass.

Definition analyze_songs (input_file output_file : string) : M unit :=
  loaded ← load_or_report input_file;
  match loaded with
  | None => pass
  | Some songs => analyze_loaded output_file songs
  end.

(** * The vocabulary of the properties *)

(** The loop of the dictionary comparison: every entry of [d] has an
    equal value under the same key in [e]. *)
Definition entries_match (e d : record) : bool :=
  forallb (fun kv => match dict_get (fst kv) e with
                     | Some w => py_eq (snd kv) w
                     | None => false
                     end) d.

(** A record that lacks ["bpm"] or lacks ["key"]. *)
Definition missing_bpm_or_key (song : record) : bool :=
  negb (dict_has "bpm" song) || negb (dict_has "key" song).

(** The number of records that lack ["bpm"] or ["key"]. *)
Definition count_missing (songs : list record) : nat :=
  length (List.filter missing_bpm_or_key songs).

(** [<=] is transitive, and total on the floats that are not NaN: this is
    the order of IEEE floats. *)
Definition leb_transitive : Prop :=
  forall x y z, F_leb x y = true -> F_leb y z = true -> F_leb x z = true.

Definition leb_total : Prop :=
  forall x y, F_isnan x = false -> F_isnan y = false ->
              F_leb x y = true \/ F_leb y x = true.

(** [m], at index [i] of [a], is a maximum of [a] and the first one. *)
Definition first_maximum (a : list F) (i : nat) : Prop :=
  exists m, a !! i = Some m /\
    (forall j x, a !! j = Some x -> F_leb x m = true) /\
    (forall j x, (j < i)%nat -> a !! j = Some x -> F_leb m x = false).

(** The end of section [i]: the start of the next section, and the time
    of the last frame for the last section. *)
Definition section_end (segment_times frame_times : list F) (i : nat) : option F :=
  match segment_times !! S i with
  | Some t => Some t
  | None => last frame_times
  end.

(** The resolver requests of a log, in order. *)
Definition resolves (l : list event) : list value :=
  omap (fun e => match e with EResolve u => Some u | _ => None end) l.

(** The resolver request that the record [song] causes: one for a truthy
    [track_url], none otherwise. *)
Definition resolve_of (song : record) : list value :=
  if truthy (track_url_of song) then [track_url_of song] else [].

(** The resolver request caused by the record at position [i]. *)
Definition resolve_at (songs : list record) (i : nat) : list value :=
  match songs !! i with Some song => resolve_of song | None => [] end.

(** A loop body that returns, keeps every [track_url], and resolves the
    URL of the record it is given. *)
Definition frame_step (step : list record -> nat -> M (list record)) : Prop :=
  forall songs i s, exists songs' s',
    step songs i s = (Done songs', s') /\
    length songs' = length songs /\
    map track_url_of songs' = map track_url_of songs /\
    resolves (log s') = resolves (log s) ++ resolve_at songs i.

(** The stream URL could not be had: [get_stream_url] caught an
    exception, or the resolver gave [None] or an empty string. *)
Definition stream_unresolved (r : option (option string)) : Prop :=
  r = None \/ r = Some None \/ r = Some (Some "").

(** The fetch of [url] in the world [w] gives nothing to attach: the
    request raised, the status is not 200, or decoding or analysis raised. *)
Definition fetch_fails {A : Type} (analysis : Bytes -> option A) (w : World) (url : string)
    : Prop :=
  match snd (requests_get w url) with
  | None => True
  | Some (status_code, content) => status_code <> 200%Z \/ analysis content = None
  end.

(** * Properties *)

(** ** Dictionaries and record equality *)

Lemma dict_get_set_eq {A : Type} (k : string) (v : A) (d : list (string * A)) :
  dict_get k (dict_set k v d) = Some v.
Proof.
  induction d as [|[k' v'] d IH]; simpl.
  - by rewrite String.eqb_refl.
  - destruct (String.eqb k' k) eqn:E; simpl.
    + by rewrite String.eqb_refl.
    + by rewrite E.
Qed.

Lemma dict_get_set_ne {A : Type} (k k0 : string) (v : A) (d : list (string * A)) :
  k <> k0 -> dict_get k0 (dict_set k v d) = dict_get k0 d.
Proof.
  intros Hne. induction d as [|[k' v'] d IH]; simpl.
  - destruct (String.eqb k k0) eqn:E; [|done].
    apply String.eqb_eq in E. congruence.
  - destruct (String.eqb k' k) eqn:E; simpl.
    + apply String.eqb_eq in E. subst k'.
      destruct (String.eqb k k0) eqn:E0; [|done].
      apply String.eqb_eq in E0. congruence.
    + by rewrite IH.
Qed.

Lemma dict_get_elem_of {A : Type} (k : string) (v : A) (d : list (string * A)) :
  dict_get k d = Some v -> (k, v) ∈ d.
Proof.
  induction d as [|[k' v'] d IH]; simpl; [done|].
  destruct (String.eqb k' k) eqn:E.
  - intros [= ->]. apply String.eqb_eq in E. subst. left.
  - intros H. right. auto.
Qed.

Lemma record_eq_unfold (r c : record) :
  record_eq r c = Nat.eqb (length r) (length c) && entries_match c r.
Proof.
  unfold record_eq, entries_match. simpl. f_equal.
  induction r as [|[k v] r IH]; simpl; [done|]. by rewrite IH.
Qed.

(** Equality of records is equality on every field. *)
Lemma record_eq_fields (r c : record) :
  record_eq r c = true <->
  length r = length c /\
  forall k v, (k, v) ∈ r -> exists w, dict_get k c = Some w /\ py_eq v w = true.
Proof.
  rewrite record_eq_unfold, andb_true_iff, Nat.eqb_eq.
  unfold entries_match. rewrite forallb_forall.
  split; intros [Hlen H]; split; try done.
  - intros k v Hin. apply list_elem_of_In in Hin. specialize (H _ Hin). simpl in H.
    destruct (dict_get k c) as [w|]; [eauto|done].
  - intros [k v] Hin. apply list_elem_of_In in Hin. simpl.
    destruct (H _ _ Hin) as (w & -> & Hw). done.
Qed.

Lemma record_eq_differs (r c : record) (k : string) (v w : value) :
  dict_get k r = Some v -> dict_get k c = Some w -> py_eq v w = false ->
  record_eq r c = false.
Proof.
  intros Hr Hc Hne. destruct (record_eq r c) eqn:E; [|done].
  apply record_eq_fields in E as [_ E].
  destruct (E k v (dict_get_elem_of _ _ _ Hr)) as (w' & Hw' & Heq). congruence.
Qed.

Lemma record_in_spec (c : record) (l : list record) :
  record_in c l = true <-> exists r, r ∈ l /\ record_eq r c = true.
Proof.
  unfold record_in. rewrite existsb_exists.
  split; intros (r & Hin & Heq); exists r; split; try done; by apply list_elem_of_In.
Qed.

Lemma record_in_false (c : record) (l : list record) :
  record_in c l = false <-> forall r, r ∈ l -> record_eq r c = false.
Proof.
  split.
  - intros H r Hin. destruct (record_eq r c) eqn:E; [|done].
    assert (record_in c l = true) by (apply record_in_spec; eauto). congruence.
  - intros H. destruct (record_in c l) eqn:E; [|done].
    apply record_in_spec in E as (r & Hin & Heq). rewrite (H r Hin) in Heq. done.
Qed.

(** A record built by stage 1 equals itself: its fields are strings, an
    integer and possibly [None]. *)
Lemma new_track_eq_refl (t : track_info) : record_eq (new_track t) (new_track t) = true.
Proof.
  unfold record_eq, new_track. simpl.
  rewrite !String.eqb_refl, Z.eqb_refl. simpl.
  destruct (t_genre t); simpl; by rewrite ?String.eqb_refl.
Qed.

(** ** C2: merge-insert *)

(** C2. The candidate is appended exactly when no record of the store
    equals it, and the store is unchanged otherwise; equality of records
    is equality on every field; inserting the record of a resolved track a
    second time changes nothing; a candidate that differs from every
    stored record on some field is appended, whatever their [track_url]. *)
Theorem merge_insert_semantics (store : list record) (c : record) :
  ((merge_insert store c = store ++ [c] /\ forall r, r ∈ store -> record_eq r c = false) \/
   (merge_insert store c = store /\ exists r, r ∈ store /\ record_eq r c = true)) /\
  (forall r : record,
     record_eq r c = true <->
     length r = length c /\
     forall k v, (k, v) ∈ r -> exists w, dict_get k c = Some w /\ py_eq v w = true) /\
  (forall t : track_info,
     merge_insert (merge_insert store (new_track t)) (new_track t)
     = merge_insert store (new_track t)) /\
  ((forall r, r ∈ store ->
      exists k v w, dict_get k r = Some v /\ dict_get k c = Some w /\ py_eq v w = false) ->
   merge_insert store c = store ++ [c] /\
   length (merge_insert store c) = S (length store)).
Proof.
  split; [|split; [|split]].
  - unfold merge_insert. destruct (record_in c store) eqn:E.
    + right. split; [done|]. by apply record_in_spec.
    + left. split; [done|]. by apply record_in_false.
  - intros r. apply record_eq_fields.
  - intros t. unfold merge_insert.
    destruct (record_in (new_track t) store) eqn:E.
    + by rewrite E.
    + assert (record_in (new_track t) (store ++ [new_track t]) = true) as ->; [|done].
      apply record_in_spec. exists (new_track t). split.
      * apply elem_of_app. right. by apply list_elem_of_singleton.
      * apply new_track_eq_refl.
  - intros Hdiff. unfold merge_insert.
    assert (record_in c store = false) as ->.
    { apply record_in_false. intros r Hin.
      destruct (Hdiff r Hin) as (k & v & w & Hr & Hc & Hne).
      eapply record_eq_differs; eauto. }
    split; [done|]. rewrite length_app. simpl. lia.
Qed.

(** ** C3: the cleanup filter *)

Lemma cleaned_songs_sublist (songs : list record) : sublist (cleaned_songs songs) songs.
Proof.
  induction songs as [|r songs IH]; simpl; [constructor|].
  destruct (dict_has "bpm" r && dict_has "key" r); by constructor.
Qed.

Lemma cleaned_songs_length (songs : list record) :
  (length (cleaned_songs songs) + count_missing songs = length songs)%nat.
Proof.
  unfold count_missing, missing_bpm_or_key.
  induction songs as [|r songs IH]; simpl; [done|].
  destruct (dict_has "bpm" r), (dict_has "key" r); simpl; lia.
Qed.

(** C3. The cleaned list has the length of the input minus the number of
    records missing [bpm] or [key]; each of its records has both; it is
    the input with those records removed, in the input's order; and it is
    what [clean_analyzed_songs] writes to the output file. *)
Theorem cleanup_filter_correct (songs : list record) (input_file output_file : string)
    (s : state) :
  let cleaned := cleaned_songs songs in
  length cleaned = (length songs - count_missing songs)%nat /\
  Forall (fun r => dict_has "bpm" r = true /\ dict_has "key" r = true) cleaned /\
  sublist cleaned songs /\
  (forall r, r ∈ cleaned <-> r ∈ songs /\ missing_bpm_or_key r = false) /\
  let s0 := {| world := world s; fs := <[input_file := Json songs]> (fs s); log := log s |} in
  exists s', clean_analyzed_songs input_file output_file s0 = (Done tt, s') /\
             fs s' !! output_file = Some (Json cleaned).
Proof.
  intros cleaned. split; [|split; [|split; [|split]]].
  - pose proof (cleaned_songs_length songs). subst cleaned. lia.
  - apply Forall_forall. intros r Hin. apply list_elem_of_In in Hin.
    apply filter_In in Hin as [_ H]. by apply andb_true_iff in H.
  - apply cleaned_songs_sublist.
  - intros r. subst cleaned. unfold cleaned_songs, missing_bpm_or_key.
    rewrite !list_elem_of_In, filter_In, andb_true_iff, orb_false_iff, !negb_false_iff.
    tauto.
  - intros s0. eexists. split.
    + unfold clean_analyzed_songs, clean_loaded, load_or_report, json_load, mbind, M_bind.
      simpl. rewrite lookup_insert_eq. simpl. reflexivity.
    + simpl. by rewrite lookup_insert_eq.
Qed.

(** ** C4: key estimation *)

Lemma argmax_scan_bound (l : list F) (mp : F) (best i : nat) :
  (best < i)%nat -> (argmax_scan mp best i l < i + length l)%nat.
Proof.
  revert mp best i. induction l as [|x l IH]; intros mp best i Hlt; simpl; [lia|].
  destruct (F_leb x mp).
  - specialize (IH mp best (S i)). lia.
  - destruct (F_isnan x); [lia|]. specialize (IH x i (S i)). lia.
Qed.

Lemma np_argmax_bound (a : list F) (i : nat) :
  np_argmax a = Some i -> (i < length a)%nat.
Proof.
  destruct a as [|x l]; simpl; [done|]. intros [= <-].
  destruct (F_isnan x); [lia|].
  pose proof (argmax_scan_bound l x 0 1). lia.
Qed.

Lemma key_mapping_length : length key_mapping = 12%nat.
Proof. reflexivity. Qed.

Section KeyOrder.

Hypothesis F_leb_trans : leb_transitive.
Hypothesis F_leb_total : leb_total.

Lemma argmax_scan_first_maximum (l pre : list F) (mp : F) (best : nat) :
  Forall (fun x => F_isnan x = false) l ->
  F_isnan mp = false ->
  pre !! best = Some mp ->
  (forall j x, pre !! j = Some x -> F_leb x mp = true) ->
  (forall j x, (j < best)%nat -> pre !! j = Some x -> F_leb mp x = false) ->
  first_maximum (pre ++ l) (argmax_scan mp best (length pre) l).
Proof.
  revert pre mp best.
  induction l as [|x l IH]; intros pre mp best Hnan Hmp Hbest Hmax Hfirst; simpl.
  - rewrite app_nil_r. exists mp. eauto.
  - apply Forall_cons in Hnan as [Hx Hnan].
    replace (pre ++ x :: l) with ((pre ++ [x]) ++ l) by by rewrite <- app_assoc.
    replace (S (length pre)) with (length (pre ++ [x])) by (rewrite length_app; simpl; lia).
    destruct (F_leb x mp) eqn:Hle.
    + apply IH; try done.
      * rewrite lookup_app_l; [done|]. by eapply lookup_lt_Some.
      * intros j y Hj. apply lookup_app_Some in Hj as [Hj|[_ Hj]]; [eauto|].
        apply list_lookup_singleton_Some in Hj as [_ <-]. done.
      * intros j y Hlt Hj. apply lookup_app_Some in Hj as [Hj|[Hge _]]; [eauto|].
        apply lookup_lt_Some in Hbest. lia.
    + rewrite Hx.
      assert (F_leb mp x = true) as Hmpx.
      { destruct (F_leb_total mp x Hmp Hx) as [H|H]; [done|congruence]. }
      apply IH; try done.
      * rewrite lookup_app_r by lia. by rewrite Nat.sub_diag.
      * intros j y Hj. apply lookup_app_Some in Hj as [Hj|[_ Hj]].
        -- eapply F_leb_trans; eauto.
        -- apply list_lookup_singleton_Some in Hj as [_ <-].
           unfold F_isnan in Hx. by apply negb_false_iff in Hx.
      * intros j y Hlt Hj. apply lookup_app_Some in Hj as [Hj|[Hge _]]; [|lia].
        destruct (F_leb x y) eqn:Hxy; [|done].
        rewrite (F_leb_trans x y mp Hxy (Hmax _ _ Hj)) in Hle. done.
Qed.

Lemma np_argmax_first_maximum (a : list F) (i : nat) :
  Forall (fun x => F_isnan x = false) a ->
  np_argmax a = Some i -> first_maximum a i.
Proof.
  destruct a as [|x l]; simpl; [done|].
  intros Hnan [= <-]. apply Forall_cons in Hnan as [Hx Hnan]. rewrite Hx.
  assert (F_leb x x = true) as Hxx.
  { unfold F_isnan in Hx. by apply negb_false_iff in Hx. }
  apply (argmax_scan_first_maximum l [x] x 0); try done.
  - intros [|j] y; simpl; [by intros [= <-]|done].
  - intros j y Hlt. lia.
Qed.

End KeyOrder.

(** C4. For the chroma matrix of 12 rows that librosa returns,
    [estimate_key] returns a label.  Whenever it returns one, the label is
    one of the 12 of [key_mapping], at the index that [argmax] gives for
    the rows' means; when no mean is a NaN, that mean is maximal and it is
    the first maximal one in the order C, C#, ..., B. *)
Theorem key_estimation (chroma : list (list F)) :
  (length chroma = 12%nat -> exists label, estimate_key chroma = Some label) /\
  (forall label, estimate_key chroma = Some label ->
     label ∈ ["C"; "C#"; "D"; "D#"; "E"; "F"; "F#"; "G"; "G#"; "A"; "A#"; "B"] /\
     exists i : nat,
       (i < 12)%nat /\
       np_argmax (map np_mean chroma) = Some i /\
       key_mapping !! i = Some label /\
       (leb_transitive -> leb_total ->
        Forall (fun row => F_isnan (np_mean row) = false) chroma ->
        first_maximum (map np_mean chroma) i)).
Proof.
  unfold estimate_key. split.
  - intros Hlen.
    destruct (np_argmax (map np_mean chroma)) as [i|] eqn:Harg.
    + pose proof (np_argmax_bound _ _ Harg) as Hi. rewrite length_map, Hlen in Hi.
      simpl. apply lookup_lt_is_Some_2. by rewrite key_mapping_length.
    + destruct chroma; simpl in *; done.
  - intros label Hlabel.
    destruct (np_argmax (map np_mean chroma)) as [i|] eqn:Harg; simpl in Hlabel; [|done].
    split.
    + change (label ∈ key_mapping). by eapply list_elem_of_lookup_2.
    + exists i. split; [|split; [done|split; [done|]]].
      * apply lookup_lt_Some in Hlabel. by rewrite key_mapping_length in Hlabel.
      * intros Htrans Htotal Hnan. apply np_argmax_first_maximum; try done.
        by apply Forall_map.
Qed.

(** ** C5, C10: energy by section *)

Lemma mask_select_elem_of {A B : Type} (p : B -> bool) (xs : list A) (ts : list B) (x : A) :
  x ∈ mask_select xs (map p ts) <->
  exists j t, xs !! j = Some x /\ ts !! j = Some t /\ p t = true.
Proof.
  unfold mask_select. revert ts.
  induction xs as [|y xs IH]; intros ts.
  - simpl. split; [by intros ?%elem_of_nil|]. intros (j & t & H & _). done.
  - destruct ts as [|t ts].
    + simpl. split; [by intros ?%elem_of_nil|]. intros (j & t & _ & H & _). done.
    + simpl. destruct (p t) eqn:Hp; simpl.
      * rewrite elem_of_cons, IH. split.
        -- intros [->|(j & t' & ? & ? & ?)]; [by exists 0%nat, t|by exists (S j), t'].
        -- intros ([|j] & t' & Hx & Ht & Hpt); simpl in *.
           ++ left. congruence.
           ++ right. eauto.
      * rewrite IH. split.
        -- intros (j & t' & ? & ? & ?). by exists (S j), t'.
        -- intros ([|j] & t' & Hx & Ht & Hpt); simpl in *; [congruence|eauto].
Qed.

Lemma frame_times_of_lookup (rms : list F) (sr hop_length : Z) (j : nat) :
  (j < length rms)%nat ->
  frame_times_of rms sr hop_length !! j = Some (frames_to_time sr hop_length (Z.of_nat j)).
Proof.
  intros Hj. unfold frame_times_of.
  change (map ?f ?l) with (f <$> l).
  rewrite list_lookup_fmap, lookup_seq_lt by done. done.
Qed.

Lemma frame_times_of_length (rms : list F) (sr hop_length : Z) :
  length (frame_times_of rms sr hop_length) = length rms.
Proof. unfold frame_times_of. by rewrite length_map, length_seq. Qed.

(** The frames selected for a section are those whose time lies in
    [[start_time, end_time)]. *)
Lemma section_frames_elem_of (rms : list F) (sr hop_length : Z) (start_time end_time x : F) :
  x ∈ section_frames rms (frame_times_of rms sr hop_length) start_time end_time <->
  exists j, rms !! j = Some x /\
            F_leb start_time (frames_to_time sr hop_length (Z.of_nat j)) = true /\
            F_ltb (frames_to_time sr hop_length (Z.of_nat j)) end_time = true.
Proof.
  unfold section_frames.
  rewrite (mask_select_elem_of (fun t => F_leb start_time t && F_ltb t end_time)).
  split.
  - intros (j & t & Hx & Ht & Hp).
    rewrite frame_times_of_lookup in Ht by by eapply lookup_lt_Some.
    injection Ht as <-. apply andb_true_iff in Hp. by exists j.
  - intros (j & Hx & H1 & H2). exists j, (frames_to_time sr hop_length (Z.of_nat j)).
    split; [done|]. split.
    + apply frame_times_of_lookup. by eapply lookup_lt_Some.
    + by rewrite H1, H2.
Qed.

(** The end time the loop picks for the section at position [length pre]
    is [section_end]. *)
Lemma section_end_code (pre rest : list F) (start_time : F) (frame_times : list F) :
  frame_times <> [] ->
  exists end_time,
    section_end (pre ++ start_time :: rest) frame_times (length pre) = Some end_time /\
    (if (Z.of_nat (length pre) <? Z.of_nat (length (pre ++ start_time :: rest)) - 1)%Z
     then (pre ++ start_time :: rest) !! (length pre + 1)%nat
     else py_last frame_times) = Some end_time.
Proof.
  intros Hft. unfold section_end, py_last. rewrite length_app.
  replace (length pre + 1)%nat with (S (length pre)) by lia.
  destruct rest as [|next rest]; simpl.
  - rewrite (proj2 (Z.ltb_ge _ _)) by lia.
    rewrite lookup_ge_None_2 by (rewrite length_app; simpl; lia).
    destruct (last frame_times) as [e|] eqn:E; [eauto|].
    by apply last_None in E.
  - rewrite (proj2 (Z.ltb_lt _ _)) by lia.
    replace (pre ++ start_time :: next :: rest)
      with ((pre ++ [start_time]) ++ next :: rest) by by rewrite <- app_assoc.
    rewrite lookup_app_r by (rewrite length_app; simpl; lia).
    rewrite length_app. simpl.
    replace (S (length pre) - (length pre + 1))%nat with 0%nat by lia.
    simpl. eauto.
Qed.

(** The loop gives one entry per remaining section start, each over the
    range that ends at [section_end]. *)
Lemma energy_loop_entries (rms frame_times pre rest : list F) :
  frame_times <> [] ->
  exists out,
    energy_loop rms frame_times (pre ++ rest) (length pre) rest = Some out /\
    map fst out = rest /\
    forall k start_time, rest !! k = Some start_time ->
      exists end_time,
        section_end (pre ++ rest) frame_times (length pre + k) = Some end_time /\
        out !! k = Some (start_time,
                         average_energy (section_frames rms frame_times start_time end_time)).
Proof.
  intros Hft. revert pre.
  induction rest as [|start_time rest IH]; intros pre.
  - exists []. simpl. repeat split. intros k x Hk. done.
  - destruct (IH (pre ++ [start_time])) as (out & Hout & Hfst & Hentries).
    rewrite <- app_assoc in Hout, Hentries. simpl in Hout, Hentries.
    rewrite length_app in Hout, Hentries. simpl in Hout, Hentries.
    destruct (section_end_code pre rest start_time frame_times Hft)
      as (end_time & Hend & Hcode).
    eexists. split; [|split].
    + simpl. rewrite Hcode. simpl.
      replace (S (length pre)) with (length pre + 1)%nat by lia.
      rewrite Hout. simpl. reflexivity.
    + simpl. by rewrite Hfst.
    + intros [|k] x Hk; simpl in Hk.
      * injection Hk as <-. exists end_time.
        replace (length pre + 0)%nat with (length pre) by lia. done.
      * destruct (Hentries k x Hk) as (e & He & Hlook). exists e.
        replace (length pre + S k)%nat with (length pre + 1 + k)%nat by lia. done.
Qed.

Lemma extract_energy_entries (y : Samples) (sr : Z) (segment_times : list F)
    (frame_length hop_length : Z) (rms : list F) :
  feature_rms y frame_length hop_length = Some rms ->
  rms <> [] ->
  exists out,
    extract_energy_by_section y sr segment_times frame_length hop_length = Some out /\
    map fst out = segment_times /\
    forall i start_time, segment_times !! i = Some start_time ->
      exists end_time,
        section_end segment_times (frame_times_of rms sr hop_length) i = Some end_time /\
        out !! i = Some (start_time,
                         average_energy (section_frames rms (frame_times_of rms sr hop_length)
                                           start_time end_time)).
Proof.
  intros Hrms Hne. unfold extract_energy_by_section. rewrite Hrms. simpl.
  apply (energy_loop_entries rms (frame_times_of rms sr hop_length) [] segment_times).
  intros H. apply (f_equal length) in H. rewrite frame_times_of_length in H.
  destruct rms; simpl in *; done.
Qed.

(** C5. When the RMS frames are there (librosa gives at least one frame),
    the energy list has one entry per section start, with the section
    starts as first components, in order; entry [i] pairs [sections[i]]
    with the mean of the RMS values of the frames whose time lies in
    [[sections[i], sections[i+1])], the last range ending at the time of
    the last frame. *)
Theorem energy_by_section_entries (y : Samples) (sr : Z) (segment_times : list F)
    (frame_length hop_length : Z) (rms : list F) :
  feature_rms y frame_length hop_length = Some rms ->
  rms <> [] ->
  exists out,
    extract_energy_by_section y sr segment_times frame_length hop_length = Some out /\
    length out = length segment_times /\
    map fst out = segment_times /\
    head (map fst out) = head segment_times /\
    forall i start_time, segment_times !! i = Some start_time ->
      exists end_time frames,
        section_end segment_times (frame_times_of rms sr hop_length) i = Some end_time /\
        (forall x, x ∈ frames <->
           exists j, rms !! j = Some x /\
             F_leb start_time (frames_to_time sr hop_length (Z.of_nat j)) = true /\
             F_ltb (frames_to_time sr hop_length (Z.of_nat j)) end_time = true) /\
        sublist frames rms /\
        (frames <> [] -> out !! i = Some (start_time, np_mean frames)).
Proof.
  intros Hrms Hne.
  destruct (extract_energy_entries y sr segment_times frame_length hop_length rms Hrms Hne)
    as (out & Hout & Hfst & Hentries).
  exists out. split; [done|]. split; [|split; [done|split; [by rewrite Hfst|]]].
  - rewrite <- Hfst. by rewrite length_map.
  - intros i start_time Hi.
    destruct (Hentries i start_time Hi) as (end_time & Hend & Hlook).
    exists end_time,
      (section_frames rms (frame_times_of rms sr hop_length) start_time end_time).
    split; [done|]. split; [|split].
    + intros x. apply section_frames_elem_of.
    + unfold section_frames, mask_select.
      generalize (map (fun t => F_leb start_time t && F_ltb t end_time)
                      (frame_times_of rms sr hop_length)).
      clear. induction rms as [|x rms IH]; intros [|b mask]; simpl.
      * constructor.
      * constructor.
      * apply sublist_nil_l.
      * destruct b; simpl; by constructor.
    + intros Hframes. rewrite Hlook. unfold average_energy.
      destruct (section_frames _ _ _ _); [done|]. done.
Qed.

(** C10. A section whose range holds no frame time gets the energy [0.0];
    the function returns a list all the same. *)
Theorem empty_section_energy_zero (y : Samples) (sr : Z) (segment_times : list F)
    (frame_length hop_length : Z) (rms : list F) :
  feature_rms y frame_length hop_length = Some rms ->
  rms <> [] ->
  exists out,
    extract_energy_by_section y sr segment_times frame_length hop_length = Some out /\
    forall i start_time end_time,
      segment_times !! i = Some start_time ->
      section_end segment_times (frame_times_of rms sr hop_length) i = Some end_time ->
      (forall j, (j < length rms)%nat ->
         F_leb start_time (frames_to_time sr hop_length (Z.of_nat j))
         && F_ltb (frames_to_time sr hop_length (Z.of_nat j)) end_time = false) ->
      out !! i = Some (start_time, F_zero).
Proof.
  intros Hrms Hne.
  destruct (extract_energy_entries y sr segment_times frame_length hop_length rms Hrms Hne)
    as (out & Hout & Hfst & Hentries).
  exists out. split; [done|].
  intros i start_time end_time Hi Hend Hempty.
  destruct (Hentries i start_time Hi) as (end_time' & Hend' & Hlook).
  rewrite Hend in Hend'. injection Hend' as <-. rewrite Hlook.
  assert (section_frames rms (frame_times_of rms sr hop_length) start_time end_time = [])
    as ->; [|done].
  destruct (section_frames _ _ _ _) as [|x l] eqn:E; [done|]. exfalso.
  assert (x ∈ section_frames rms (frame_times_of rms sr hop_length) start_time end_time)
    as Hx by (rewrite E; left).
  apply section_frames_elem_of in Hx as (j & Hj & H1 & H2).
  specialize (Hempty j (lookup_lt_Some _ _ _ Hj)). rewrite H1, H2 in Hempty. done.
Qed.

(** ** C8: bars *)

Lemma py_range_step_nil (step : nat) : (0 < step)%nat -> py_range_step 0 step = [].
Proof.
  intros H. unfold py_range_step.
  rewrite Nat.div_small by lia. done.
Qed.

Lemma ceil_div_step (len step : nat) :
  (0 < step)%nat -> (0 < len)%nat ->
  ((len + step - 1) / step = S ((len - step + step - 1) / step))%nat.
Proof.
  intros Hstep Hlen. destruct (Nat.le_gt_cases step len) as [Hle|Hgt].
  - replace (len + step - 1)%nat with ((len - step + step - 1) + 1 * step)%nat by lia.
    rewrite Nat.div_add by lia. lia.
  - replace (len - step)%nat with 0%nat by lia. simpl.
    rewrite (Nat.div_small (step - 1)) by lia.
    replace (len + step - 1)%nat with ((len - 1) + 1 * step)%nat by lia.
    rewrite Nat.div_add by lia. rewrite Nat.div_small by lia. done.
Qed.

(** The comprehension cuts the list into chunks from the left. *)
Lemma bar_groups_cons {A : Type} (l : list A) (n : nat) :
  (0 < n)%nat -> l <> [] ->
  map (fun i => py_slice l i (i + n)) (py_range_step (length l) n)
  = take n l :: map (fun i => py_slice (drop n l) i (i + n))
                    (py_range_step (length (drop n l)) n).
Proof.
  intros Hn Hl. unfold py_range_step.
  assert (0 < length l)%nat by (destruct l; simpl; [done|lia]).
  rewrite ceil_div_step by done. rewrite length_drop.
  simpl. f_equal.
  - unfold py_slice. simpl. by rewrite Nat.sub_0_r.
  - rewrite <- seq_shift, !map_map. apply map_ext. intros q.
    unfold py_slice. rewrite drop_drop. f_equal. lia.
Qed.

Lemma bar_groups_nil (n : nat) : (0 < n)%nat -> bar_groups [] n = [].
Proof. intros H. unfold bar_groups. simpl. by rewrite py_range_step_nil. Qed.

Lemma bar_groups_step (l : list Z) (n : nat) :
  (0 < n)%nat -> l <> [] ->
  bar_groups l n = take n l :: bar_groups (drop n l) n.
Proof. intros Hn Hl. unfold bar_groups. by apply (bar_groups_cons l n). Qed.

(** Induction along the chunks. *)
Lemma bar_groups_ind (n : nat) (P : list Z -> list (list Z) -> Prop) :
  (0 < n)%nat ->
  P [] [] ->
  (forall l, l <> [] -> P (drop n l) (bar_groups (drop n l) n) ->
             P l (take n l :: bar_groups (drop n l) n)) ->
  forall l, P l (bar_groups l n).
Proof.
  intros Hn Hnil Hstep l.
  remember (length l) as m eqn:Hm. revert l Hm.
  induction m as [m IH] using lt_wf_ind. intros l Hm.
  destruct l as [|b l].
  - by rewrite bar_groups_nil.
  - rewrite bar_groups_step by done. apply Hstep; [done|].
    apply (IH (length (drop n (b :: l)))); [|done].
    subst m. rewrite length_drop. simpl. lia.
Qed.

Lemma bar_groups_concat (l : list Z) (n : nat) :
  (0 < n)%nat -> concat (bar_groups l n) = l.
Proof.
  intros Hn. apply (bar_groups_ind n (fun l g => concat g = l)); [done|done|].
  intros l0 _ IH. simpl. rewrite IH. apply take_drop.
Qed.

Lemma bar_groups_sizes (l : list Z) (n : nat) :
  (0 < n)%nat ->
  Forall (fun g => 1 <= length g <= n)%nat (bar_groups l n) /\
  (forall i g, bar_groups l n !! i = Some g -> (S i < length (bar_groups l n))%nat ->
               length g = n) /\
  (forall g, last (bar_groups l n) = Some g ->
             length g = if (length l mod n =? 0)%nat then n else (length l mod n)%nat) /\
  length (bar_groups l n) = ((length l + n - 1) / n)%nat.
Proof.
  intros Hn.
  apply (bar_groups_ind n (fun l g =>
    Forall (fun g0 => 1 <= length g0 <= n)%nat g /\
    (forall i g0, g !! i = Some g0 -> (S i < length g)%nat -> length g0 = n) /\
    (forall g0, last g = Some g0 ->
                length g0 = if (length l mod n =? 0)%nat then n else (length l mod n)%nat) /\
    length g = ((length l + n - 1) / n)%nat)); [done| |].
  - repeat split; try done. simpl. rewrite Nat.div_small by lia. done.
  - intros l0 Hne (IH1 & IH2 & IH3 & IH4).
    assert (0 < length l0)%nat as Hlen by (destruct l0; simpl; [done|lia]).
    split; [|split; [|split]].
    + constructor; [|done]. rewrite length_take. lia.
    + intros [|i] g0 Hi Hlt; simpl in *.
      * injection Hi as <-. rewrite length_take.
        destruct (bar_groups (drop n l0) n) eqn:E; simpl in *; [lia|].
        rewrite length_drop in IH4.
        destruct (Nat.le_gt_cases n (length l0)); [lia|].
        replace (length l0 - n)%nat with 0%nat in IH4 by lia. simpl in IH4.
        rewrite Nat.div_small in IH4 by lia. done.
      * apply (IH2 i g0 Hi). lia.
    + intros g0 Hlast. rewrite length_drop in IH3, IH4.
      destruct (bar_groups (drop n l0) n) as [|g1 gs] eqn:E.
      * simpl in Hlast. injection Hlast as <-. rewrite length_take.
        simpl in IH4. symmetry in IH4.
        apply Nat.div_small_iff in IH4; [|lia].
        assert (length l0 <= n)%nat by lia.
        destruct (Nat.eq_dec (length l0) n) as [Heq|Hneq].
        -- rewrite Heq, Nat.Div0.mod_same. simpl. lia.
        -- rewrite Nat.mod_small by lia.
           destruct (length l0 =? 0)%nat eqn:E0; [apply Nat.eqb_eq in E0|]; lia.
      * rewrite last_cons_cons in Hlast. rewrite (IH3 g0 Hlast).
        assert (n <= length l0)%nat as Hle.
        { destruct (Nat.le_gt_cases n (length l0)); [done|].
          replace (length l0 - n)%nat with 0%nat in IH4 by lia. simpl in IH4.
          rewrite Nat.div_small in IH4 by lia. done. }
        assert (length l0 mod n = (length l0 - n) mod n)%nat as ->; [|done].
        replace (length l0) with ((length l0 - n) + 1 * n)%nat at 1 by lia.
        by rewrite Nat.Div0.mod_add.
    + simpl. rewrite IH4, length_drop. by rewrite <- ceil_div_step.
Qed.

(** C8, as the code has it.  When the library calls succeed,
    [extract_structure] returns; its bars are the beats cut from the left
    into consecutive groups, each converted to times, which cover every
    beat once and in order; every group but the last has exactly 4 beats
    and the last one has the remaining 1 to 4. *)
Theorem bar_grouping (y : Samples) (sr num_sections : Z) (mfcc : Mfcc)
    (boundaries : list Z) (beat_tempo : F) (beat_frames : list Z) :
  feature_mfcc y sr = Some mfcc ->
  segment_agglomerative mfcc num_sections = Some boundaries ->
  beat_track y sr = Some (beat_tempo, beat_frames) ->
  exists (s : structure) (groups : list (list Z)),
    extract_structure y sr num_sections = Some s /\
    bars s = map (map (frames_to_time sr default_hop)) groups /\
    concat groups = beat_frames /\
    concat (bars s) = map (frames_to_time sr default_hop) beat_frames /\
    length groups = ((length beat_frames + 3) / 4)%nat /\
    Forall (fun g => 1 <= length g <= 4)%nat groups /\
    (forall i g, groups !! i = Some g -> (S i < length groups)%nat -> length g = 4%nat) /\
    (forall g, last groups = Some g ->
       length g = if (length beat_frames mod 4 =? 0)%nat then 4%nat
                  else (length beat_frames mod 4)%nat).
Proof.
  intros Hmfcc Hseg Hbeat.
  unfold extract_structure. rewrite Hmfcc. simpl. rewrite Hseg. simpl. rewrite Hbeat. simpl.
  destruct (bar_groups_sizes beat_frames 4 ltac:(lia)) as (H1 & H2 & H3 & H4).
  pose proof (bar_groups_concat beat_frames 4 ltac:(lia)) as Hc.
  replace (length beat_frames + 4 - 1)%nat with (length beat_frames + 3)%nat in H4 by lia.
  eexists _, (bar_groups beat_frames 4). split; [reflexivity|]. cbn [bars].
  split; [done|]. split; [done|]. split; [|done].
  rewrite <- Hc at 2. generalize (bar_groups beat_frames 4). clear.
  induction l as [|g l IH]; simpl; [done|]. by rewrite map_app, IH.
Qed.

(** ** C7: loading the store *)

(** Unfolds the plumbing of [M]. *)
Ltac run_m :=
  repeat progress
    (unfold mbind, M_bind, mret, M_ret, pass, print, sleep, call, raise,
       json_dump, path_exists, load_or_report, json_load, emit;
     simpl).

(** C7. Stage 1 creates an empty store when its file does not exist and
    starts from the saved records when it does; on malformed content it
    raises before anything is written or resolved.  Stages 2 and 3 and the
    cleanup report a missing or malformed input and return, with no file
    written and no request made; with a well-formed input they run on the
    records of the file.  No stage goes on with an empty list when its
    file holds records or is malformed. *)
Theorem store_load_semantics (playlist_urls : list string) (input_file output_file : string)
    (s : state) :
  (fs s !! output_file = None ->
   url_collection playlist_urls output_file s
   = collect_playlists playlist_urls output_file []
       {| world := world s; fs := <[output_file := Json []]> (fs s);
          log := log s ++ [EWrite output_file] |}) /\
  (forall records, fs s !! output_file = Some (Json records) ->
   url_collection playlist_urls output_file s
   = collect_playlists playlist_urls output_file records s) /\
  (fs s !! output_file = Some Malformed ->
   url_collection playlist_urls output_file s = (Raised JSONDecodeError, s)) /\
  (forall stage, stage ∈ [process_songs; clean_analyzed_songs; analyze_songs] ->
   (fs s !! input_file = None ->
    stage input_file output_file s = (Done tt, emit (EPrint (MsgNotFound input_file)) s)) /\
   (fs s !! input_file = Some Malformed ->
    stage input_file output_file s
    = (Done tt, emit (EPrint (MsgDecodeError input_file)) s))) /\
  (forall songs, fs s !! input_file = Some (Json songs) ->
   process_songs input_file output_file s = process_loaded output_file songs s /\
   clean_analyzed_songs input_file output_file s = clean_loaded output_file songs s /\
   analyze_songs input_file output_file s = analyze_loaded output_file songs s).
Proof.
  split; [|split; [|split; [|split]]].
  - intros H. unfold url_collection. run_m. rewrite H. run_m.
    rewrite lookup_insert_eq. done.
  - intros records H. unfold url_collection. run_m. by repeat (rewrite H; run_m).
  - intros H. unfold url_collection. run_m. by repeat (rewrite H; run_m).
  - intros stage Hstage.
    repeat (apply elem_of_cons in Hstage as [->|Hstage]);
      [| | |by apply elem_of_nil in Hstage];
      (split; intros H;
       unfold process_songs, clean_analyzed_songs, analyze_songs; run_m;
       by repeat (rewrite H; run_m)).
  - intros songs H.
    unfold process_songs, clean_analyzed_songs, analyze_songs. run_m.
    by repeat (rewrite H; run_m).
Qed.

(** ** The steps of the loops *)

Lemma resolves_app (l1 l2 : list event) : resolves (l1 ++ l2) = resolves l1 ++ resolves l2.
Proof. apply omap_app. Qed.

Lemma track_url_of_set (k : string) (v : value) (song : record) :
  k <> "track_url" -> track_url_of (dict_set k v song) = track_url_of song.
Proof. intros H. unfold track_url_of. by rewrite dict_get_set_ne. Qed.

Lemma map_insert_same {A B : Type} (f : A -> B) (l : list A) (i : nat) (x y : A) :
  l !! i = Some x -> f y = f x -> map f (<[i := y]> l) = map f l.
Proof.
  intros Hi Hf. change (map f ?l) with (f <$> l).
  rewrite list_fmap_insert, Hf. apply list_insert_id.
  by rewrite list_lookup_fmap, Hi.
Qed.

(** Case analysis on what the outside answers. *)
Ltac case_step :=
  match goal with
  | |- context [match ?x with _ => _ end] =>
      lazymatch x with
      | context [match _ with _ => _ end] => fail
      | _ => destruct x eqn:?
      end
  end.

Ltac run_cases := run_m; repeat (case_step; run_m).

(** What one iteration of stage 2 may do: it returns, it changes at most
    the record at [i], no [track_url], and it resolves the URL of that
    record when it is truthy. *)
Lemma process_song_frame (output_file : string) (songs : list record) (i : nat) (s : state) :
  exists songs' s',
    process_song output_file songs i s = (Done songs', s') /\
    length songs' = length songs /\
    (forall j, j <> i -> songs' !! j = songs !! j) /\
    map track_url_of songs' = map track_url_of songs /\
    resolves (log s') =
      resolves (log s) ++ match songs !! i with Some song => resolve_of song | None => [] end.
Proof.
  unfold process_song, resolve_of, get_stream_url, analyze_song.
  destruct (songs !! i) as [song|] eqn:Hsong.
  - run_cases.
    all: eexists _, _; (split; [reflexivity|]); simpl.
    all: rewrite ?resolves_app; simpl; rewrite ?app_nil_r, <- ?app_assoc; simpl.
    all: rewrite ?length_insert.
    all: repeat split; try done.
    all: try (intros j Hj; by rewrite list_lookup_insert_ne).
    all: eapply map_insert_same; [done|].
    all: by rewrite !track_url_of_set.
  - run_m. eexists _, _. split; [reflexivity|]. by rewrite app_nil_r.
Qed.

(** The same for one iteration of stage 3. *)
Lemma analyze_step_frame (output_file : string) (total : nat) (songs : list record) (i : nat)
    (s : state) :
  exists songs' s',
    analyze_step output_file total songs i s = (Done songs', s') /\
    length songs' = length songs /\
    (forall j, j <> i -> songs' !! j = songs !! j) /\
    map track_url_of songs' = map track_url_of songs /\
    resolves (log s') =
      resolves (log s) ++ match songs !! i with Some song => resolve_of song | None => [] end.
Proof.
  unfold analyze_step, resolve_of, get_stream_url.
  destruct (songs !! i) as [song|] eqn:Hsong.
  - run_cases.
    all: eexists _, _; (split; [reflexivity|]); simpl.
    all: rewrite ?resolves_app; simpl; rewrite ?app_nil_r, <- ?app_assoc; simpl.
    all: rewrite ?length_insert.
    all: repeat split; try done.
    all: try (intros j Hj; by rewrite list_lookup_insert_ne).
    all: eapply map_insert_same; [done|].
    all: by rewrite !track_url_of_set.
  - run_m. eexists _, _. split; [reflexivity|]. by rewrite app_nil_r.
Qed.

Lemma resolve_at_ext (songs songs' : list record) (i : nat) :
  map track_url_of songs' = map track_url_of songs ->
  resolve_at songs' i = resolve_at songs i.
Proof.
  intros H. unfold resolve_at, resolve_of.
  assert ((track_url_of <$> songs') !! i = (track_url_of <$> songs) !! i) as Hi.
  { change (map track_url_of songs' !! i = map track_url_of songs !! i). by rewrite H. }
  rewrite !list_lookup_fmap in Hi.
  destruct (songs' !! i), (songs !! i); simpl in Hi; try done.
  by injection Hi as ->.
Qed.

Lemma flat_map_resolve_at (songs : list record) :
  flat_map (resolve_at songs) (seq 0 (length songs)) = flat_map resolve_of songs.
Proof.
  induction songs as [|song songs IH]; simpl; [done|].
  unfold resolve_at at 1. simpl. f_equal.
  rewrite <- seq_shift, flat_map_concat_map, map_map, <- flat_map_concat_map. done.
Qed.

Lemma fold_m_frame (step : list record -> nat -> M (list record)) :
  frame_step step ->
  forall idxs songs s, exists songs' s',
    fold_m step idxs songs s = (Done songs', s') /\
    length songs' = length songs /\
    map track_url_of songs' = map track_url_of songs /\
    resolves (log s') = resolves (log s) ++ flat_map (resolve_at songs) idxs.
Proof.
  intros Hstep idxs. induction idxs as [|i idxs IH]; intros songs s.
  - exists songs, s. simpl. run_m. by rewrite app_nil_r.
  - destruct (Hstep songs i s) as (songs1 & s1 & Hrun1 & Hlen1 & Hurl1 & Hres1).
    destruct (IH songs1 s1) as (songs2 & s2 & Hrun2 & Hlen2 & Hurl2 & Hres2).
    exists songs2, s2. simpl. unfold mbind, M_bind. rewrite Hrun1, Hrun2.
    split; [done|]. split; [congruence|]. split; [congruence|].
    rewrite Hres2, Hres1, <- app_assoc. f_equal. f_equal.
    apply flat_map_ext. intros j. by apply resolve_at_ext.
Qed.

Lemma process_song_frame_step (output_file : string) : frame_step (process_song output_file).
Proof.
  intros songs i s.
  destruct (process_song_frame output_file songs i s) as (songs' & s' & ? & ? & ? & ? & ?).
  by exists songs', s'.
Qed.

Lemma analyze_step_frame_step (output_file : string) (total : nat) :
  frame_step (analyze_step output_file total).
Proof.
  intros songs i s.
  destruct (analyze_step_frame output_file total songs i s) as (songs' & s' & ? & ? & ? & ? & ?).
  by exists songs', s'.
Qed.

Lemma fold_m_cons {A S : Type} (body : S -> A -> M S) (x : A) (l : list A) (acc : S)
    (s : state) :
  fold_m body (x :: l) acc s =
  match body acc x s with
  | (Done acc', s') => fold_m body l acc' s'
  | (Raised e, s') => (Raised e, s')
  end.
Proof. reflexivity. Qed.

Lemma process_genre_frame (output_file : string) (group : value * list nat)
    (songs : list record) (s : state) :
  exists songs' s',
    process_genre output_file songs group s = (Done songs', s') /\
    length songs' = length songs /\
    map track_url_of songs' = map track_url_of songs /\
    resolves (log s') = resolves (log s) ++ flat_map (resolve_at songs) (snd group).
Proof.
  destruct (fold_m_frame _ (process_song_frame_step output_file) (snd group) songs
              (emit (EPrint (MsgGenre (fst group) (length (snd group)))) s))
    as (songs1 & s1 & Hrun1 & Hlen1 & Hurl1 & Hres1).
  exists songs1, s1. unfold process_genre, mbind, M_bind, print. rewrite Hrun1.
  repeat split; try done. rewrite Hres1. unfold emit. simpl.
  rewrite resolves_app. simpl. by rewrite app_nil_r.
Qed.

(** The loop over the genres resolves the records of the groups, group
    after group. *)
Lemma process_genres_frame (output_file : string) (groups : list (value * list nat)) :
  forall songs s, exists songs' s',
    fold_m (process_genre output_file) groups songs s = (Done songs', s') /\
    length songs' = length songs /\
    map track_url_of songs' = map track_url_of songs /\
    resolves (log s') = resolves (log s) ++ flat_map (resolve_at songs) (concat (map snd groups)).
Proof.
  induction groups as [|group groups IH]; intros songs s.
  - exists songs, s. simpl. run_m. by rewrite app_nil_r.
  - destruct (process_genre_frame output_file group songs s)
      as (songs1 & s1 & Hrun1 & Hlen1 & Hurl1 & Hres1).
    destruct (IH songs1 s1) as (songs2 & s2 & Hrun2 & Hlen2 & Hurl2 & Hres2).
    exists songs2, s2. rewrite fold_m_cons, Hrun1, Hrun2.
    split; [done|]. split; [congruence|]. split; [congruence|].
    rewrite Hres2, Hres1. simpl. rewrite flat_map_app, <- app_assoc.
    f_equal. f_equal. apply flat_map_ext. intros j. by apply resolve_at_ext.
Qed.

(** Grouping by genre permutes the positions. *)
Lemma group_add_members (genre : value) (i : nat) (groups : list (value * list nat)) :
  Permutation (concat (map snd (group_add genre i groups)))
              (concat (map snd groups) ++ [i]).
Proof.
  induction groups as [|[g members] groups IH]; simpl; [done|].
  destruct (py_eq g genre); simpl.
  - rewrite <- !app_assoc. apply Permutation_app_head. apply Permutation_app_comm.
  - rewrite <- app_assoc. by apply Permutation_app_head.
Qed.

Lemma sort_loop_members (songs : list record) (i : nat) (groups groups' : list (value * list nat)) :
  sort_loop i songs groups = Some groups' ->
  Permutation (concat (map snd groups')) (concat (map snd groups) ++ seq i (length songs)).
Proof.
  revert i groups. induction songs as [|song songs IH]; intros i groups; simpl.
  - intros [= <-]. by rewrite app_nil_r.
  - destruct (hashable (genre_of song)); [|done]. intros H.
    rewrite (IH _ _ H), (group_add_members (genre_of song) i groups), <- app_assoc. done.
Qed.

Lemma sort_loop_hashable (songs : list record) (i : nat) (groups : list (value * list nat)) :
  Forall (fun song => hashable (genre_of song) = true) songs ->
  is_Some (sort_loop i songs groups).
Proof.
  revert i groups. induction songs as [|song songs IH]; intros i groups H; simpl; [eauto|].
  apply Forall_cons in H as [-> H]. by apply IH.
Qed.

(** ** Stage 1 never raises inside its loops *)

Lemma track_step_done (total : nat) (all_tracks : list record) (it : nat * string) (s : state) :
  exists all_tracks' s',
    track_step total all_tracks it s = (Done all_tracks', s') /\ fs s' = fs s.
Proof.
  unfold track_step. destruct it as [track_index permalink]. run_cases.
  all: by eexists _, _.
Qed.

Lemma track_steps_done (total : nat) (its : list (nat * string)) :
  forall all_tracks s, exists all_tracks' s',
    fold_m (track_step total) its all_tracks s = (Done all_tracks', s') /\ fs s' = fs s.
Proof.
  induction its as [|it its IH]; intros all_tracks s.
  - by exists all_tracks, s.
  - destruct (track_step_done total all_tracks it s) as (all1 & s1 & Hrun1 & Hfs1).
    destruct (IH all1 s1) as (all2 & s2 & Hrun2 & Hfs2).
    exists all2, s2. rewrite fold_m_cons, Hrun1, Hrun2. split; [done|congruence].
Qed.

Lemma playlist_step_done (output_file : string) (total : nat) (all_tracks : list record)
    (it : nat * string) (s : state) :
  exists all_tracks' s', playlist_step output_file total all_tracks it s = (Done all_tracks', s').
Proof.
  unfold playlist_step. destruct it as [playlist_index playlist_url]. run_m.
  destruct (api_resolve_playlist (world s) playlist_url) as [w [pl|]]; run_m.
  - match goal with
    | |- context [fold_m ?body ?l ?acc ?st] =>
        destruct (track_steps_done (length (pl_tracks pl)) l acc st) as (all1 & s1 & -> & _)
    end.
    by eexists _, _.
  - by eexists _, _.
Qed.

Lemma playlist_steps_done (output_file : string) (total : nat) (its : list (nat * string)) :
  forall all_tracks s, exists all_tracks' s',
    fold_m (playlist_step output_file total) its all_tracks s = (Done all_tracks', s').
Proof.
  induction its as [|it its IH]; intros all_tracks s.
  - by exists all_tracks, s.
  - destruct (playlist_step_done output_file total all_tracks it s) as (all1 & s1 & Hrun1).
    destruct (IH all1 s1) as (all2 & s2 & Hrun2).
    exists all2, s2. by rewrite fold_m_cons, Hrun1, Hrun2.
Qed.

(** ** A record is processed the same with or without more fields *)

Lemma process_song_ignores_fields (output_file : string) (songs : list record) (i : nat)
    (song : record) (k : string) (v : value) (s : state) :
  k <> "track_url" -> songs !! i = Some song ->
  log (snd (process_song output_file (<[i := dict_set k v song]> songs) i s))
  = log (snd (process_song output_file songs i s)).
Proof.
  intros Hk Hsong. unfold process_song, get_stream_url, analyze_song.
  rewrite list_lookup_insert_eq by by eapply lookup_lt_Some.
  rewrite Hsong, track_url_of_set by done.
  run_cases; reflexivity.
Qed.

Lemma analyze_step_ignores_fields (output_file : string) (total : nat) (songs : list record)
    (i : nat) (song : record) (k : string) (v : value) (s : state) :
  k <> "track_url" -> songs !! i = Some song ->
  log (snd (analyze_step output_file total (<[i := dict_set k v song]> songs) i s))
  = log (snd (analyze_step output_file total songs i s)).
Proof.
  intros Hk Hsong. unfold analyze_step, get_stream_url.
  rewrite list_lookup_insert_eq by by eapply lookup_lt_Some.
  rewrite Hsong, track_url_of_set by done.
  run_cases; reflexivity.
Qed.

(** ** C1: what a second run resolves *)

(** C1, as the code has it.  Run on a saved file, stage 3 and stage 2
    complete, and they resolve again the [track_url] of every record that
    has a truthy one: stage 3 in the order of the file, stage 2 genre by
    genre.  What an iteration resolves, fetches and prints is the same
    with and without the fields [bpm], [key] or [features] in its record:
    neither stage skips a record that already carries them. *)
Theorem rerun_resolves_every_record (input_file output_file : string) (songs : list record)
    (s : state) :
  fs s !! input_file = Some (Json songs) ->
  (exists s',
     analyze_songs input_file output_file s = (Done tt, s') /\
     resolves (log s') = resolves (log s) ++ flat_map resolve_of songs /\
     forall song, song ∈ songs -> truthy (track_url_of song) = true ->
                  EResolve (track_url_of song) ∈ log s') /\
  (Forall (fun song => hashable (genre_of song) = true) songs ->
   exists s' requests,
     process_songs input_file output_file s = (Done tt, s') /\
     resolves (log s') = resolves (log s) ++ requests /\
     Permutation requests (flat_map resolve_of songs) /\
     forall song, song ∈ songs -> truthy (track_url_of song) = true ->
                  EResolve (track_url_of song) ∈ log s') /\
  (forall (records : list record) (i : nat) (song : record) (k : string) (v : value)
          (s0 : state),
     k <> "track_url" -> records !! i = Some song ->
     let records' := <[i := dict_set k v song]> records in
     log (snd (process_song output_file records' i s0))
     = log (snd (process_song output_file records i s0)) /\
     log (snd (analyze_step output_file (length records) records' i s0))
     = log (snd (analyze_step output_file (length records) records i s0))).
Proof.
  intros Hfile.
  assert (forall (l : list event) (requests : list value) (song : record),
            Permutation requests (flat_map resolve_of songs) ->
            resolves l = resolves (log s) ++ requests ->
            song ∈ songs -> truthy (track_url_of song) = true ->
            EResolve (track_url_of song) ∈ l) as Hmem.
  { intros l requests song Hperm Hres Hin Htruthy.
    assert (track_url_of song ∈ resolves l) as Hu.
    { rewrite Hres. apply elem_of_app. right. apply list_elem_of_In.
      eapply Permutation_in; [symmetry; exact Hperm|].
      apply in_flat_map. exists song. split; [by apply list_elem_of_In|].
      unfold resolve_of. rewrite Htruthy. by left. }
    unfold resolves in Hu. apply list_elem_of_omap in Hu as (e & He & Hu).
    destruct e; try done. by injection Hu as ->. }
  split; [|split].
  - destruct (fold_m_frame _ (analyze_step_frame_step output_file (length songs))
                (seq 0 (length songs)) songs s) as (songs' & s' & Hrun & _ & _ & Hres).
    rewrite flat_map_resolve_at in Hres.
    exists s'. split; [|split; [done|]].
    + unfold analyze_songs, analyze_loaded. run_m. rewrite Hfile. run_m.
      unfold mbind, M_bind in Hrun. by rewrite Hrun.
    + intros song. by apply (Hmem _ (flat_map resolve_of songs)).
  - intros Hhash.
    destruct (sort_loop_hashable songs 0 [] Hhash) as [groups Hgroups].
    destruct (process_genres_frame output_file groups songs s)
      as (songs' & s' & Hrun & _ & _ & Hres).
    assert (Permutation (flat_map (resolve_at songs) (concat (map snd groups)))
                        (flat_map resolve_of songs)) as Hperm.
    { rewrite <- flat_map_resolve_at. apply Permutation_flat_map.
      apply (sort_loop_members songs 0 [] groups Hgroups). }
    exists s', (flat_map (resolve_at songs) (concat (map snd groups))).
    split; [|split; [done|split; [done|]]].
    + unfold process_songs, process_loaded, sort_songs_by_genre. run_m. rewrite Hfile.
      run_m. rewrite Hgroups. run_m. unfold mbind, M_bind in Hrun. by rewrite Hrun.
    + intros song. by apply (Hmem _ _ song Hperm).
  - intros records i song k v s0 Hk Hsong records'. split.
    + by apply process_song_ignores_fields.
    + by apply analyze_step_ignores_fields.
Qed.

(** ** C6: skip and continue *)

Lemma process_song_unresolved (output_file : string) (songs : list record) (i : nat)
    (song : record) (s : state) :
  songs !! i = Some song ->
  stream_unresolved (snd (api_stream_url (world s) (track_url_of song))) ->
  exists s', process_song output_file songs i s = (Done songs, s') /\ fs s' = fs s.
Proof.
  intros Hsong Hres. unfold process_song, get_stream_url. rewrite Hsong.
  destruct (api_stream_url (world s) (track_url_of song)) as [w r] eqn:Hr. simpl in Hres.
  destruct (truthy (track_url_of song)); run_m; [|by eexists].
  rewrite Hr. destruct Hres as [->|[->| ->]]; run_m; by eexists.
Qed.

Lemma process_song_fetch_fails (output_file : string) (songs : list record) (i : nat)
    (song : record) (s : state) (url : string) :
  songs !! i = Some song ->
  truthy (track_url_of song) = true ->
  snd (api_stream_url (world s) (track_url_of song)) = Some (Some url) ->
  url <> "" ->
  fetch_fails bpm_and_key (fst (api_stream_url (world s) (track_url_of song))) url ->
  exists s', process_song output_file songs i s = (Done songs, s') /\
             fs s' = <[output_file := Json songs]> (fs s).
Proof.
  intros Hsong Htruthy Hres Hurl Hfail.
  unfold process_song, get_stream_url, analyze_song. rewrite Hsong, Htruthy.
  destruct (api_stream_url (world s) (track_url_of song)) as [w r] eqn:Hr.
  simpl in Hres, Hfail. subst r. unfold fetch_fails in Hfail.
  assert (String.eqb url "" = false) as Hne by by apply String.eqb_neq.
  run_m. rewrite Hr. run_m. rewrite Hne. run_m.
  destruct (requests_get w url) as [w' [[status_code content]|]]; simpl in Hfail; run_m.
  - destruct (status_code =? 200)%Z eqn:Hstatus; run_m; [|by eexists].
    apply Z.eqb_eq in Hstatus. destruct Hfail as [?|Hfail]; [done|].
    rewrite Hfail. run_m. by eexists.
  - by eexists.
Qed.

Lemma analyze_step_unresolved (output_file : string) (total : nat) (songs : list record)
    (i : nat) (song : record) (s : state) :
  songs !! i = Some song ->
  stream_unresolved (snd (api_stream_url (world s) (track_url_of song))) ->
  exists s', analyze_step output_file total songs i s = (Done songs, s') /\ fs s' = fs s.
Proof.
  intros Hsong Hres. unfold analyze_step, get_stream_url. rewrite Hsong.
  destruct (api_stream_url (world s) (track_url_of song)) as [w r] eqn:Hr. simpl in Hres.
  destruct (truthy (track_url_of song)); run_m; [|by eexists].
  rewrite Hr. destruct Hres as [->|[->| ->]]; run_m; by eexists.
Qed.

Lemma analyze_step_fetch_fails (output_file : string) (total : nat) (songs : list record)
    (i : nat) (song : record) (s : state) (url : string) :
  songs !! i = Some song ->
  snd (api_stream_url (world s) (track_url_of song)) = Some (Some url) ->
  fetch_fails deep_analysis (fst (api_stream_url (world s) (track_url_of song))) url ->
  exists s', analyze_step output_file total songs i s = (Done songs, s') /\ fs s' = fs s.
Proof.
  intros Hsong Hres Hfail.
  unfold analyze_step, get_stream_url. rewrite Hsong.
  destruct (api_stream_url (world s) (track_url_of song)) as [w r] eqn:Hr.
  simpl in Hres, Hfail. subst r. unfold fetch_fails in Hfail.
  destruct (truthy (track_url_of song)); run_m; [|by eexists].
  rewrite Hr. run_m.
  destruct (String.eqb url ""); run_m; [by eexists|].
  destruct (requests_get w url) as [w' [[status_code content]|]]; simpl in Hfail; run_m.
  - destruct (status_code =? 200)%Z eqn:Hstatus; run_m; [|by eexists].
    apply Z.eqb_eq in Hstatus. destruct Hfail as [?|Hfail]; [done|].
    rewrite Hfail. run_m. by eexists.
  - by eexists.
Qed.

(** C6. A playlist or a track that does not resolve, a stream URL that
    cannot be had, a request that raises or answers another status than
    200, a decode or an analysis that raises: each is caught in the
    iteration it occurs in, and the iteration returns with the list of
    records as it was.  In stages 1 and 3, and in stage 2 when the stream
    URL cannot be had, the files are as they were.  In stage 2 a failed
    fetch or analysis is followed by the save of lines 138-139: the output
    file is overwritten with that list, so what an earlier run left there
    is replaced, and the file is as it was only when it held that very
    list.  Every iteration changes at most its own record, and the loops
    of the three stages run to their end whatever fails. *)
Theorem skip_and_continue (output_file : string) (total : nat) (s : state) :
  (forall all_tracks it,
     snd (api_resolve_playlist (world s) (snd it)) = None ->
     exists s', playlist_step output_file total all_tracks it s = (Done all_tracks, s') /\
                fs s' = fs s) /\
  (forall all_tracks it,
     snd (api_resolve_track (world s) (snd it)) = None ->
     exists s', track_step total all_tracks it s = (Done all_tracks, s') /\ fs s' = fs s) /\
  (forall songs i song,
     songs !! i = Some song ->
     let r := api_stream_url (world s) (track_url_of song) in
     (stream_unresolved (snd r) ->
      (exists s', process_song output_file songs i s = (Done songs, s') /\ fs s' = fs s) /\
      (exists s', analyze_step output_file total songs i s = (Done songs, s') /\
                  fs s' = fs s)) /\
     (forall url, snd r = Some (Some url) ->
        (truthy (track_url_of song) = true -> url <> "" ->
         fetch_fails bpm_and_key (fst r) url ->
         exists s', process_song output_file songs i s = (Done songs, s') /\
                    fs s' = <[output_file := Json songs]> (fs s) /\
                    (fs s !! output_file = Some (Json songs) -> fs s' = fs s)) /\
        (fetch_fails deep_analysis (fst r) url ->
         exists s', analyze_step output_file total songs i s = (Done songs, s') /\
                    fs s' = fs s))) /\
  (forall songs i,
     exists songs2 s2 songs3 s3,
       process_song output_file songs i s = (Done songs2, s2) /\
       analyze_step output_file total songs i s = (Done songs3, s3) /\
       forall j, j <> i -> songs2 !! j = songs !! j /\ songs3 !! j = songs !! j) /\
  (forall playlist_urls all_tracks,
     exists s', collect_playlists playlist_urls output_file all_tracks s = (Done tt, s')) /\
  (forall sorted_songs songs,
     exists songs' s',
       fold_m (process_genre output_file) sorted_songs songs s = (Done songs', s')) /\
  (forall songs, exists s', analyze_loaded output_file songs s = (Done tt, s')).
Proof.
  split; [|split; [|split; [|split; [|split; [|split]]]]].
  - intros all_tracks [playlist_index playlist_url] H. simpl in H.
    unfold playlist_step. run_m.
    destruct (api_resolve_playlist (world s) playlist_url) as [w r]. simpl in H. subst r.
    run_m. by eexists.
  - intros all_tracks [track_index permalink] H. simpl in H.
    unfold track_step. run_m.
    destruct (api_resolve_track (world s) permalink) as [w r]. simpl in H. subst r.
    run_m. by eexists.
  - intros songs i song Hsong r. subst r. split.
    + intros Hres. split.
      * by eapply process_song_unresolved.
      * by eapply analyze_step_unresolved.
    + intros url Hurl. split.
      * intros Htruthy Hne Hfail.
        destruct (process_song_fetch_fails output_file songs i song s url)
          as (s' & Hrun & Hfs); try done.
        exists s'. split; [done|]. split; [done|].
        intros Hsaved. rewrite Hfs. by apply insert_id.
      * intros. by eapply analyze_step_fetch_fails.
  - intros songs i.
    destruct (process_song_frame output_file songs i s) as (songs2 & s2 & H2 & _ & F2 & _).
    destruct (analyze_step_frame output_file total songs i s)
      as (songs3 & s3 & H3 & _ & F3 & _).
    exists songs2, s2, songs3, s3. split; [done|]. split; [done|].
    intros j Hj. split; auto.
  - intros playlist_urls all_tracks. unfold collect_playlists.
    destruct (playlist_steps_done output_file (length playlist_urls)
                (enumerate1 playlist_urls) all_tracks s) as (all' & s' & Hrun).
    unfold mbind, M_bind. rewrite Hrun. unfold print. by eexists.
  - intros sorted_songs songs.
    destruct (process_genres_frame output_file sorted_songs songs s)
      as (songs' & s' & Hrun & _).
    by exists songs', s'.
  - intros songs. unfold analyze_loaded.
    destruct (fold_m_frame _ (analyze_step_frame_step output_file (length songs))
                (seq 0 (length songs)) songs s) as (songs' & s' & Hrun & _).
    unfold mbind, M_bind. rewrite Hrun. unfold pass, mret, M_ret. by eexists.
Qed.

(** ** C9: a tempo of 0.0 *)

(** Stage 2 changes the list of records only by attaching a truthy [bpm]
    and a truthy [key] to the record of the iteration. *)
Lemma process_song_attaches (output_file : string) (songs : list record) (i : nat)
    (s : state) (songs' : list record) (s' : state) :
  process_song output_file songs i s = (Done songs', s') ->
  songs' = songs \/
  exists song bpm key,
    songs !! i = Some song /\ truthy bpm = true /\ truthy key = true /\
    songs' = <[i := dict_set "key" key (dict_set "bpm" bpm song)]> songs.
Proof.
  unfold process_song, get_stream_url, analyze_song.
  destruct (songs !! i) as [song|] eqn:Hsong.
  - run_cases.
    all: intros [= <- <-]; try by left.
    all: right; eexists song, _, _; split; [done|].
    all: match goal with H : _ && _ = true |- _ => apply andb_true_iff in H as [? ?] end.
    all: by repeat split.
  - run_m. intros [= <- <-]. by left.
Qed.

(** C9. When the stream resolves, the fetch answers 200 and the analysis
    returns a key with a tempo equal to 0.0, stage 2 prints that the
    analysis failed and leaves the record as it was, without [bpm] and
    [key] if it had none; it still writes the whole list to the output
    file and goes on with the next record.  In every case [bpm] and [key]
    are attached only when both are truthy. *)
Theorem zero_tempo_not_attached (output_file : string) (songs : list record) (i : nat)
    (song : record) (s : state) (url : string) (content : Bytes) (zero_tempo : F)
    (key : string) :
  songs !! i = Some song ->
  truthy (track_url_of song) = true ->
  snd (api_stream_url (world s) (track_url_of song)) = Some (Some url) ->
  url <> "" ->
  snd (requests_get (fst (api_stream_url (world s) (track_url_of song))) url)
    = Some (200%Z, content) ->
  bpm_and_key content = Some (zero_tempo, key) ->
  F_eqb zero_tempo F_zero = true ->
  (exists s',
     process_song output_file songs i s = (Done songs, s') /\
     EPrint MsgAnalysisFailed ∈ log s' /\
     fs s' = <[output_file := Json songs]> (fs s) /\
     fs s' !! output_file = Some (Json songs) /\
     (forall rest,
        fold_m (process_song output_file) (i :: rest) songs s
        = fold_m (process_song output_file) rest songs s')) /\
  (forall s0 songs' s',
     process_song output_file songs i s0 = (Done songs', s') ->
     songs' = songs \/
     exists bpm key',
       truthy bpm = true /\ truthy key' = true /\
       songs' = <[i := dict_set "key" key' (dict_set "bpm" bpm song)]> songs).
Proof.
  intros Hsong Htruthy Hres Hurl Hget Hkey Hzero. split.
  - assert (exists s',
              process_song output_file songs i s = (Done songs, s') /\
              EPrint MsgAnalysisFailed ∈ log s' /\
              fs s' = <[output_file := Json songs]> (fs s)) as (s' & Hrun & Hlog & Hfs).
    { unfold process_song, get_stream_url, analyze_song. rewrite Hsong, Htruthy.
      destruct (api_stream_url (world s) (track_url_of song)) as [w r] eqn:Hr.
      simpl in Hres, Hget. subst r.
      assert (String.eqb url "" = false) as Hne by by apply String.eqb_neq.
      run_m. rewrite Hr. run_m. rewrite Hne. run_m.
      destruct (requests_get w url) as [w' r']. simpl in Hget. subst r'.
      run_m. rewrite Hkey. run_m. rewrite Hzero. run_m.
      eexists. split; [reflexivity|]. simpl. split; [|done].
      rewrite !elem_of_app. left. left. left. right. left. }
    exists s'. split; [done|]. split; [done|]. split; [done|]. split.
    + rewrite Hfs. apply lookup_insert_eq.
    + intros rest. by rewrite fold_m_cons, Hrun.
  - intros s0 songs' s' Hrun.
    destruct (process_song_attaches _ _ _ _ _ _ Hrun)
      as [->|(song' & bpm & key' & Hsong' & ? & ? & ->)]; [by left|].
    right. pose proof (eq_trans (eq_sym Hsong') Hsong) as E. injection E as ->.
    by exists bpm, key'.
Qed.

(** * Further properties of the stages *)

(** ** Loops *)

(** A relation between the loop variable and the state before and after,
    reflexive and transitive, that every iteration keeps while returning
    is kept by the loop, which returns. *)
Lemma fold_m_rel {A S : Type} (step : S -> A -> M S) (R : S * state -> S * state -> Prop) :
  (forall x, R x x) ->
  (forall x y z, R x y -> R y z -> R x z) ->
  (forall acc a s, exists acc' s', step acc a s = (Done acc', s') /\ R (acc, s) (acc', s')) ->
  forall l acc s,
    exists acc' s', fold_m step l acc s = (Done acc', s') /\ R (acc, s) (acc', s').
Proof.
  intros Hrefl Htrans Hstep l. induction l as [|a l IH]; intros acc s.
  - exists acc, s. split; [done|]. apply Hrefl.
  - destruct (Hstep acc a s) as (acc1 & s1 & Hrun1 & HR1).
    destruct (IH acc1 s1) as (acc2 & s2 & Hrun2 & HR2).
    exists acc2, s2. rewrite fold_m_cons, Hrun1, Hrun2. split; [done|]. by eapply Htrans.
Qed.

(** ** Stage 1 only appends *)

(** A record as stage 1 builds it from a resolved track. *)
Definition built_by_stage1 (r : record) : Prop := exists t, r = new_track t.

(** No record of the list equals a later one. *)
Definition no_duplicates (l : list record) : Prop :=
  forall i j ri rj, (i < j)%nat -> l !! i = Some ri -> l !! j = Some rj ->
                    record_eq ri rj = false.

(** The store after is the store before and appended records of stage 1;
    the files are as before. *)
Definition appended (x y : list record * state) : Prop :=
  exists added, fst y = fst x ++ added /\ Forall built_by_stage1 added /\
                fs (snd y) = fs (snd x).

(** The same, for a step that may save: the files are as before and the
    store too, or the store is what the output file holds. *)
Definition appended_and_saved (output_file : string) (x y : list record * state) : Prop :=
  exists added, fst y = fst x ++ added /\ Forall built_by_stage1 added /\
                ((fst y = fst x /\ fs (snd y) = fs (snd x)) \/
                 fs (snd y) = <[output_file := Json (fst y)]> (fs (snd x))).

Lemma merge_insert_appended (all_tracks : list record) (t : track_info) :
  exists added, merge_insert all_tracks (new_track t) = all_tracks ++ added /\
                Forall built_by_stage1 added.
Proof.
  unfold merge_insert. destruct (record_in _ _).
  - exists []. by rewrite app_nil_r.
  - exists [new_track t]. split; [done|]. constructor; [by exists t|done].
Qed.

Lemma track_step_appended (total : nat) (all_tracks : list record) (it : nat * string)
    (s : state) :
  exists all_tracks' s',
    track_step total all_tracks it s = (Done all_tracks', s') /\
    appended (all_tracks, s) (all_tracks', s').
Proof.
  unfold track_step, appended. destruct it as [track_index permalink]. run_m.
  destruct (api_resolve_track (world s) permalink) as [w [t|]]; run_m.
  - destruct (merge_insert_appended all_tracks t) as (added & Hadd & Hnew).
    destruct (record_in (new_track t) all_tracks); run_m;
      eexists _, _; (split; [reflexivity|]); by exists added.
  - eexists _, _. split; [reflexivity|]. exists []. by rewrite app_nil_r.
Qed.

Lemma appended_trans (x y z : list record * state) :
  appended x y -> appended y z -> appended x z.
Proof.
  intros (a1 & H1 & F1 & S1) (a2 & H2 & F2 & S2). exists (a1 ++ a2).
  rewrite H2, H1, app_assoc. split; [done|]. split; [by apply Forall_app|congruence].
Qed.

Lemma playlist_step_appended (output_file : string) (total : nat) (all_tracks : list record)
    (it : nat * string) (s : state) :
  exists all_tracks' s',
    playlist_step output_file total all_tracks it s = (Done all_tracks', s') /\
    appended_and_saved output_file (all_tracks, s) (all_tracks', s').
Proof.
  unfold playlist_step. destruct it as [playlist_index playlist_url]. run_m.
  destruct (api_resolve_playlist (world s) playlist_url) as [w [pl|]]; run_m.
  - match goal with
    | |- context [fold_m ?body ?l ?acc ?st] =>
        destruct (fold_m_rel body appended
                    ltac:(intros x; exists []; by rewrite app_nil_r)
                    appended_trans (track_step_appended _) l acc st)
          as (all1 & s1 & -> & (added & Hadd & Hnew & Hfs))
    end.
    simpl in Hadd, Hfs. eexists _, _. split; [reflexivity|].
    exists added. simpl. split; [done|]. split; [done|]. right. by rewrite Hfs.
  - eexists _, _. split; [reflexivity|]. exists []. simpl.
    rewrite app_nil_r. split; [done|]. split; [done|]. left. done.
Qed.

Lemma appended_and_saved_trans (output_file : string) (x y z : list record * state) :
  appended_and_saved output_file x y -> appended_and_saved output_file y z ->
  appended_and_saved output_file x z.
Proof.
  intros (a1 & H1 & F1 & S1) (a2 & H2 & F2 & S2). exists (a1 ++ a2).
  split; [by rewrite H2, H1, app_assoc|]. split; [by apply Forall_app|].
  destruct S1 as [[E1 S1]|S1], S2 as [[E2 S2]|S2].
  - left. split; congruence.
  - right. by rewrite S2, S1.
  - right. by rewrite S2, S1, E2.
  - right. by rewrite S2, S1, insert_insert_eq.
Qed.

Lemma collect_playlists_appended (playlist_urls : list string) (output_file : string)
    (all_tracks : list record) (s : state) :
  exists s' added,
    collect_playlists playlist_urls output_file all_tracks s = (Done tt, s') /\
    Forall built_by_stage1 added /\
    ((added = [] /\ fs s' = fs s) \/
     fs s' = <[output_file := Json (all_tracks ++ added)]> (fs s)).
Proof.
  unfold collect_playlists.
  destruct (fold_m_rel (playlist_step output_file (length playlist_urls))
              (appended_and_saved output_file)
              ltac:(intros x; exists []; rewrite app_nil_r; repeat split; by left)
              (appended_and_saved_trans output_file)
              (playlist_step_appended output_file (length playlist_urls))
              (enumerate1 playlist_urls) all_tracks s)
    as (all' & s1 & Hrun & (added & Hadd & Hnew & Hfs)).
  simpl in Hadd, Hfs. unfold mbind, M_bind. rewrite Hrun. run_m.
  eexists _, added. split; [reflexivity|]. split; [done|]. simpl.
  destruct Hfs as [[Heq Hfs]|Hfs].
  - left. split; [|done]. rewrite Hadd in Heq.
    apply (f_equal length) in Heq. rewrite length_app in Heq.
    destruct added; [done|simpl in Heq; lia].
  - right. by rewrite Hfs, Hadd.
Qed.

(** X1. Stage 1 returns unless its file is malformed; what the file holds at
    the end is what it held at the start (nothing, when it did not exist)
    followed by records built from resolved tracks: no stored record is
    removed, changed or moved, and no other file is written. *)
Theorem url_collection_appends (playlist_urls : list string) (output_file : string)
    (s : state) :
  fs s !! output_file <> Some Malformed ->
  exists s' added,
    url_collection playlist_urls output_file s = (Done tt, s') /\
    Forall built_by_stage1 added /\
    fs s' = <[output_file :=
                Json (match fs s !! output_file with
                      | Some (Json loaded) => loaded
                      | _ => []
                      end ++ added)]> (fs s).
Proof.
  intros Hfile. unfold url_collection. run_m.
  destruct (fs s !! output_file) as [[|loaded]|] eqn:Hout; [done| |]; run_m.
  - rewrite Hout. run_m.
    destruct (collect_playlists_appended playlist_urls output_file loaded s)
      as (s' & added & Hrun & Hnew & Hfs).
    exists s', added. split; [done|]. split; [done|].
    destruct Hfs as [[-> Hfs]|Hfs]; [|done].
    rewrite Hfs, app_nil_r. symmetry. by apply insert_id.
  - rewrite lookup_insert_eq. run_m.
    match goal with
    | |- context [collect_playlists _ _ _ ?st] =>
        destruct (collect_playlists_appended playlist_urls output_file [] st)
          as (s' & added & Hrun & Hnew & Hfs)
    end.
    exists s', added. split; [done|]. split; [done|]. simpl in Hfs.
    destruct Hfs as [[-> Hfs]|Hfs]; [done|].
    by rewrite Hfs, insert_insert_eq.
Qed.

Lemma merge_insert_no_duplicates (all_tracks : list record) (c : record) :
  no_duplicates all_tracks -> no_duplicates (merge_insert all_tracks c).
Proof.
  intros Hnd. unfold merge_insert. destruct (record_in c all_tracks) eqn:Hin; [done|].
  intros i j ri rj Hlt Hi Hj.
  apply lookup_app_Some in Hj as [Hj|[Hge Hj]].
  - rewrite lookup_app_l in Hi by (apply lookup_lt_Some in Hj; lia). by eapply Hnd.
  - apply list_lookup_singleton_Some in Hj as [Hj <-].
    rewrite lookup_app_l in Hi by lia.
    apply (proj1 (record_in_false c all_tracks) Hin). by eapply list_elem_of_lookup_2.
Qed.

(** A step that keeps the store free of duplicates. *)
Definition keeps_no_duplicates (x y : list record * state) : Prop :=
  no_duplicates (fst x) -> no_duplicates (fst y).

Lemma keeps_no_duplicates_refl (x : list record * state) : keeps_no_duplicates x x.
Proof. by intros H. Qed.

Lemma keeps_no_duplicates_trans (x y z : list record * state) :
  keeps_no_duplicates x y -> keeps_no_duplicates y z -> keeps_no_duplicates x z.
Proof. intros H1 H2 H. auto. Qed.

Lemma track_step_no_duplicates (total : nat) (all_tracks : list record) (it : nat * string)
    (s : state) :
  exists all_tracks' s',
    track_step total all_tracks it s = (Done all_tracks', s') /\
    keeps_no_duplicates (all_tracks, s) (all_tracks', s').
Proof.
  unfold track_step, keeps_no_duplicates. destruct it as [track_index permalink]. run_m.
  destruct (api_resolve_track (world s) permalink) as [w [t|]]; run_m.
  - destruct (record_in (new_track t) all_tracks); run_m;
      eexists _, _; (split; [reflexivity|]); simpl; apply merge_insert_no_duplicates.
  - by eexists _, _.
Qed.

Lemma playlist_step_no_duplicates (output_file : string) (total : nat)
    (all_tracks : list record) (it : nat * string) (s : state) :
  exists all_tracks' s',
    playlist_step output_file total all_tracks it s = (Done all_tracks', s') /\
    keeps_no_duplicates (all_tracks, s) (all_tracks', s').
Proof.
  unfold playlist_step. destruct it as [playlist_index playlist_url]. run_m.
  destruct (api_resolve_playlist (world s) playlist_url) as [w [pl|]]; run_m.
  - match goal with
    | |- context [fold_m ?body ?l ?acc ?st] =>
        destruct (fold_m_rel body keeps_no_duplicates
                    keeps_no_duplicates_refl keeps_no_duplicates_trans
                    (track_step_no_duplicates _) l acc st)
          as (all1 & s1 & -> & Hnd)
    end.
    eexists _, _. split; [reflexivity|]. exact Hnd.
  - eexists _, _. split; [reflexivity|]. by intros H.
Qed.

(** Two relations kept by a step are kept together. *)
Lemma step_both {A S : Type} (step : S -> A -> M S) (R1 R2 : S * state -> S * state -> Prop) :
  (forall acc a s, exists acc' s', step acc a s = (Done acc', s') /\ R1 (acc, s) (acc', s')) ->
  (forall acc a s, exists acc' s', step acc a s = (Done acc', s') /\ R2 (acc, s) (acc', s')) ->
  forall acc a s, exists acc' s',
    step acc a s = (Done acc', s') /\ (R1 (acc, s) (acc', s') /\ R2 (acc, s) (acc', s')).
Proof.
  intros H1 H2 acc a s.
  destruct (H1 acc a s) as (acc1 & s1 & Hrun1 & HR1).
  destruct (H2 acc a s) as (acc2 & s2 & Hrun2 & HR2).
  rewrite Hrun1 in Hrun2. injection Hrun2 as <- <-. by exists acc1, s1.
Qed.

Lemma collect_playlists_no_duplicates (playlist_urls : list string) (output_file : string)
    (loaded : list record) (s : state) :
  fs s !! output_file = Some (Json loaded) ->
  no_duplicates loaded ->
  exists s' final,
    collect_playlists playlist_urls output_file loaded s = (Done tt, s') /\
    fs s' !! output_file = Some (Json final) /\
    no_duplicates final.
Proof.
  intros Hfile Hnd.
  destruct (fold_m_rel (playlist_step output_file (length playlist_urls))
              (fun x y => appended_and_saved output_file x y /\ keeps_no_duplicates x y)
              ltac:(intros x; split;
                    [exists []; rewrite app_nil_r; repeat split; by left
                    |apply keeps_no_duplicates_refl])
              ltac:(intros x y z [A1 K1] [A2 K2]; split;
                    [by eapply appended_and_saved_trans
                    |by eapply keeps_no_duplicates_trans])
              (step_both _ _ _
                 (playlist_step_appended output_file (length playlist_urls))
                 (playlist_step_no_duplicates output_file (length playlist_urls)))
              (enumerate1 playlist_urls) loaded s)
    as (final & s1 & Hrun & (added & Hadd & _ & Hfs) & Hkeep).
  simpl in Hadd, Hfs. unfold collect_playlists.
  unfold mbind, M_bind in *. rewrite Hrun. run_m.
  eexists _, final. split; [reflexivity|]. simpl. split; [|by apply Hkeep].
  destruct Hfs as [ [-> ->] | -> ]; [done|apply lookup_insert_eq].
Qed.

(** X2. Stage 1 keeps the store free of duplicates, on a first run, which
    creates the file, as on a later one: when no record of the store that
    the file holds at the start equals a later one, the same holds of the
    store that the file holds at the end. *)
Theorem url_collection_no_duplicates (playlist_urls : list string) (output_file : string)
    (s : state) :
  fs s !! output_file <> Some Malformed ->
  (forall loaded, fs s !! output_file = Some (Json loaded) -> no_duplicates loaded) ->
  exists s' final,
    url_collection playlist_urls output_file s = (Done tt, s') /\
    fs s' !! output_file = Some (Json final) /\
    no_duplicates final.
Proof.
  intros Hfile Hnd. unfold url_collection. run_m.
  destruct (fs s !! output_file) as [[|loaded]|] eqn:Hout; [done| |]; run_m.
  - rewrite Hout. run_m.
    apply collect_playlists_no_duplicates; [done|]. by apply Hnd.
  - rewrite lookup_insert_eq. run_m.
    apply collect_playlists_no_duplicates; simpl.
    + apply lookup_insert_eq.
    + intros i j ri rj _ Hi. by rewrite lookup_nil in Hi.
Qed.

(** ** Grouping by genre *)

(** The first member of a group. *)
Definition first_member (group : value * list nat) : nat :=
  match snd group with
  | j :: _ => j
  | [] => 0%nat
  end.

(** A group of [sort_songs_by_genre] over [songs]: it is not empty, its
    members are positions of [songs] in increasing order, its key is the
    genre of its first member, and the genre of every member is that key
    or equals it by [==]. *)
Definition genre_group (songs : list record) (group : value * list nat) : Prop :=
  snd group <> [] /\
  StronglySorted lt (snd group) /\
  (forall j, j ∈ snd group ->
     exists song, songs !! j = Some song /\
       (fst group = genre_of song \/ py_eq (fst group) (genre_of song) = true)) /\
  (exists song, songs !! first_member group = Some song /\ fst group = genre_of song).

(** The group [a] comes before the group [b]: their keys differ and [a]
    appeared first. *)
Definition group_before (a b : value * list nat) : Prop :=
  py_eq (fst a) (fst b) = false /\ (first_member a < first_member b)%nat.

Lemma sorted_snoc (m : list nat) (i : nat) :
  StronglySorted lt m -> (forall j, j ∈ m -> (j < i)%nat) -> StronglySorted lt (m ++ [i]).
Proof.
  induction 1 as [|a m Hs IH Ha]; intros Hlt; simpl.
  - repeat constructor.
  - constructor.
    + apply IH. intros j Hj. apply Hlt. by right.
    + apply Forall_app. split; [done|]. constructor; [|done]. apply Hlt. by left.
Qed.

Lemma genre_group_grow (pre : list record) (song : record) (group : value * list nat) :
  genre_group pre group -> genre_group (pre ++ [song]) group.
Proof.
  intros (Hne & Hs & Hmem & (s0 & H0 & Hkey)). repeat split; try done.
  - intros j Hj. destruct (Hmem j Hj) as (sg & Hsg & Heq). exists sg.
    split; [|done]. by apply lookup_app_l_Some.
  - exists s0. split; [|done]. by apply lookup_app_l_Some.
Qed.

Lemma genre_group_add (pre : list record) (song : record) (g : value) (m : list nat) :
  genre_group pre (g, m) -> py_eq g (genre_of song) = true ->
  genre_group (pre ++ [song]) (g, m ++ [length pre]).
Proof.
  intros (Hne & Hs & Hmem & (s0 & H0 & Hkey)) Heq. simpl in *. repeat split; simpl.
  - by destruct m.
  - apply sorted_snoc; [done|]. intros j Hj.
    destruct (Hmem j Hj) as (sg & Hsg & _). by eapply lookup_lt_Some.
  - intros j Hj. apply elem_of_app in Hj as [Hj|Hj].
    + destruct (Hmem j Hj) as (sg & Hsg & Hg). exists sg.
      split; [|done]. by apply lookup_app_l_Some.
    + apply list_elem_of_singleton in Hj as ->. exists song. split; [|by right].
      rewrite lookup_app_r by lia. by rewrite Nat.sub_diag.
  - exists s0. split; [|done].
    unfold first_member in *. simpl in *. destruct m as [|j m]; [done|]. simpl.
    by apply lookup_app_l_Some.
Qed.

Lemma genre_group_new (pre : list record) (song : record) :
  genre_group (pre ++ [song]) (genre_of song, [length pre]).
Proof.
  assert ((pre ++ [song]) !! length pre = Some song) as Hlook.
  { rewrite lookup_app_r by lia. by rewrite Nat.sub_diag. }
  repeat split; simpl.
  - done.
  - repeat constructor.
  - intros j Hj. apply list_elem_of_singleton in Hj as ->. exists song. by split; [|left].
  - by exists song.
Qed.

(** What one insertion does to the groups, for a property [Q] of groups
    that a group keeps when the position is appended to it. *)
Lemma group_add_Forall (P Q : value * list nat -> Prop) (genre : value) (i : nat)
    (groups : list (value * list nat)) :
  Forall P groups -> Forall Q groups ->
  (forall g m, P (g, m) -> Q (g, m) -> py_eq g genre = true -> Q (g, m ++ [i])) ->
  ((forall g m, (g, m) ∈ groups -> py_eq g genre = false) -> Q (genre, [i])) ->
  Forall Q (group_add genre i groups).
Proof.
  intros HP HQ Happ Hnew. induction groups as [|[g m] groups IH]; simpl.
  - constructor; [|done]. apply Hnew. by intros g m ?%elem_of_nil.
  - apply Forall_cons in HP as [HP1 HP], HQ as [HQ1 HQ].
    destruct (py_eq g genre) eqn:E.
    + constructor; [by apply Happ|done].
    + constructor; [done|]. apply IH; try done.
      intros Hrest. apply Hnew. intros g' m' Hin.
      apply elem_of_cons in Hin as [[= -> ->]|Hin]; [done|by eapply Hrest].
Qed.

Lemma group_add_sorted (pre : list record) (song : record)
    (groups : list (value * list nat)) :
  Forall (genre_group pre) groups ->
  StronglySorted group_before groups ->
  StronglySorted group_before (group_add (genre_of song) (length pre) groups).
Proof.
  intros Hok Hs. induction Hs as [|[g m] groups Hs IH Hall]; simpl.
  - repeat constructor.
  - apply Forall_cons in Hok as [Hgm Hok].
    destruct (py_eq g (genre_of song)) eqn:E.
    + constructor; [done|].
      eapply Forall_impl; [exact Hall|]. intros b [Hkey Hfirst]. split; [done|].
      destruct Hgm as (Hne & _). unfold first_member in *. simpl in *.
      by destruct m.
    + constructor; [by apply IH|].
      apply (group_add_Forall (genre_group pre)); try done.
      * intros g' m' Hg' [Hkey Hfirst] _. split; [done|].
        destruct Hg' as (Hne & _). unfold first_member in *. simpl in *.
        by destruct m'.
      * intros _. split; [done|].
        destruct Hgm as (Hne & _ & Hmem & _). unfold first_member. simpl in *.
        destruct m as [|j m]; [done|].
        destruct (Hmem j ltac:(left)) as (sg & Hsg & _). by eapply lookup_lt_Some.
Qed.

Lemma group_add_groups (pre : list record) (song : record)
    (groups : list (value * list nat)) :
  Forall (genre_group pre) groups ->
  Forall (genre_group (pre ++ [song])) (group_add (genre_of song) (length pre) groups).
Proof.
  intros Hok.
  apply (group_add_Forall (genre_group pre)); try done.
  - eapply Forall_impl; [exact Hok|]. intros group. apply genre_group_grow.
  - intros g m Hgm _ Heq. by apply genre_group_add.
  - intros _. apply genre_group_new.
Qed.

Lemma sort_loop_groups (rest pre : list record) (groups groups' : list (value * list nat)) :
  Forall (genre_group pre) groups ->
  StronglySorted group_before groups ->
  sort_loop (length pre) rest groups = Some groups' ->
  Forall (genre_group (pre ++ rest)) groups' /\ StronglySorted group_before groups'.
Proof.
  revert pre groups. induction rest as [|song rest IH]; intros pre groups Hok Hs; simpl.
  - intros [= <-]. by rewrite app_nil_r.
  - destruct (hashable (genre_of song)); [|done]. intros Hrun.
    replace (pre ++ song :: rest) with ((pre ++ [song]) ++ rest) by by rewrite <- app_assoc.
    apply (IH (pre ++ [song]) (group_add (genre_of song) (length pre) groups)).
    + by apply group_add_groups.
    + by apply group_add_sorted.
    + rewrite length_app. simpl. by replace (length pre + 1)%nat with (S (length pre)) by lia.
Qed.

Lemma sort_loop_unhashable (songs : list record) (i : nat) (groups : list (value * list nat)) :
  sort_loop i songs groups = None <->
  exists song, song ∈ songs /\ hashable (genre_of song) = false.
Proof.
  revert i groups. induction songs as [|song songs IH]; intros i groups; simpl.
  - split; [done|]. intros (song & Hin & _). by apply elem_of_nil in Hin.
  - destruct (hashable (genre_of song)) eqn:E.
    + rewrite IH. split.
      * intros (sg & Hin & Hh). exists sg. split; [by right|done].
      * intros (sg & Hin & Hh). apply elem_of_cons in Hin as [->|Hin]; [congruence|eauto].
    + split; [|done]. intros _. exists song. split; [left|done].
Qed.

(** X3. [sort_songs_by_genre] raises [TypeError], before anything else is
    done, exactly when the genre of some song is a list or a dictionary.
    Otherwise it returns groups that hold every position of the list once;
    each group is not empty, lists its songs in the order of the file
    under the genre of its first song, which the genre of every member
    equals; the keys of two groups differ, and the groups come in the
    order in which their genres first appear.  A song without the key
    ["genre"] goes under ["Unknown"]. *)
Theorem sort_songs_by_genre_groups (songs : list record) (s : state) :
  (sort_songs_by_genre songs s = (Raised TypeError, s) <->
   exists song, song ∈ songs /\ hashable (genre_of song) = false) /\
  (forall groups s',
     sort_songs_by_genre songs s = (Done groups, s') ->
     s' = s /\
     Permutation (concat (map snd groups)) (seq 0 (length songs)) /\
     Forall (genre_group songs) groups /\
     StronglySorted group_before groups) /\
  (Forall (fun song => hashable (genre_of song) = true) songs ->
   exists groups, sort_songs_by_genre songs s = (Done groups, s)) /\
  (forall song, dict_get "genre" song = None -> genre_of song = VStr "Unknown").
Proof.
  unfold sort_songs_by_genre. split; [|split; [|split]].
  - rewrite <- (sort_loop_unhashable songs 0 []).
    destruct (sort_loop 0 songs []); run_m; split; congruence.
  - intros groups s'. destruct (sort_loop 0 songs []) as [groups0|] eqn:Hrun; run_m; [|done].
    intros [= <- <-]. split; [done|]. split.
    + apply (sort_loop_members songs 0 [] groups0 Hrun).
    + apply (sort_loop_groups songs [] [] groups0); [done|constructor|done].
  - intros Hhash. destruct (sort_loop_hashable songs 0 [] Hhash) as [groups Hrun].
    rewrite Hrun. by exists groups.
  - intros song Hmissing. unfold genre_of. by rewrite Hmissing.
Qed.

(** ** What stage 2 attaches, saves and paces *)

(** The URLs fetched, the paths written and the seconds slept, in order. *)
Definition fetched (l : list event) : list string :=
  omap (fun e => match e with EGet u => Some u | _ => None end) l.

Definition written (l : list event) : list string :=
  omap (fun e => match e with EWrite p => Some p | _ => None end) l.

Definition pauses (l : list event) : list Z :=
  omap (fun e => match e with ESleep n => Some n | _ => None end) l.

(** A dictionary has no key twice. *)
Definition unique_keys (r : record) : Prop := NoDup (map fst r).

(** A record with a float [bpm] other than 0.0 and a [key] among the 12
    labels. *)
Definition analyzed (r : record) : Prop :=
  exists tempo label,
    dict_get "bpm" r = Some (VFloat tempo) /\ F_eqb tempo F_zero = false /\
    dict_get "key" r = Some (VStr label) /\ label ∈ key_mapping.

(** [final] has the records of [songs], position by position, with the
    same values under every key outside [keys]. *)
Definition same_except (keys : list string) (songs final : list record) : Prop :=
  length final = length songs /\
  (forall k, k ∉ keys -> map (dict_get k) final = map (dict_get k) songs) /\
  (Forall unique_keys songs -> Forall unique_keys final).

(** The list and the files are as before, or the output file holds the
    list. *)
Definition saved (output_file : string) (x y : list record * state) : Prop :=
  (fst y = fst x /\ fs (snd y) = fs (snd x)) \/
  fs (snd y) = <[output_file := Json (fst y)]> (fs (snd x)).

(** [n] more fetches, each followed by a save to the output file and a
    sleep of one second, and each after a resolver request of its own. *)
Definition paced (output_file : string) (l l' : list event) (n : nat) : Prop :=
  length (fetched l') = (length (fetched l) + n)%nat /\
  written l' = written l ++ replicate n output_file /\
  pauses l' = pauses l ++ replicate n 1%Z /\
  (length (resolves l) + n <= length (resolves l'))%nat.

(** Projects the logs of a goal. *)
Ltac simpl_logs :=
  unfold fetched, written, pauses, resolves;
  repeat (progress (rewrite ?omap_app; simpl));
  rewrite ?app_nil_r.

Lemma estimate_key_label (chroma : list (list F)) (label : string) :
  estimate_key chroma = Some label -> label ∈ key_mapping /\ label <> "".
Proof.
  unfold estimate_key. destruct (np_argmax _) as [i|]; simpl; [|done].
  intros H. split; [by eapply list_elem_of_lookup_2|].
  do 12 (destruct i as [|i]; [by injection H as <-|]). done.
Qed.

Lemma bpm_and_key_label (content : Bytes) (tempo : F) (label : string) :
  bpm_and_key content = Some (tempo, label) -> label ∈ key_mapping /\ label <> "".
Proof.
  unfold bpm_and_key.
  destruct (librosa_load content) as [[y sr]|]; simpl; [|done].
  destruct (beat_track y sr) as [[t beats]|]; simpl; [|done].
  destruct (chroma_cqt y sr) as [chroma|]; simpl; [|done].
  destruct (estimate_key chroma) as [k|] eqn:E; simpl; [|done].
  intros [= <- <-]. by apply (estimate_key_label chroma).
Qed.

(** X4. [analyze_song] returns a float tempo with a key among the 12 labels,
    or [None] twice, as the docstring says; the pair is a tempo and a key
    exactly when the request answers 200 and decoding, beat tracking and
    key estimation all succeed.  It makes one request, to the URL it is
    given, and writes no file. *)
Theorem analyze_song_result (stream_url : string) (s : state) :
  exists bpm key s',
    analyze_song stream_url s = (Done (bpm, key), s') /\
    ((bpm = VNone /\ key = VNone /\
      forall content tempo label,
        snd (requests_get (world s) stream_url) = Some (200%Z, content) ->
        bpm_and_key content <> Some (tempo, label)) \/
     (exists content tempo label,
        snd (requests_get (world s) stream_url) = Some (200%Z, content) /\
        bpm_and_key content = Some (tempo, label) /\
        bpm = VFloat tempo /\ key = VStr label /\ label ∈ key_mapping /\
        truthy key = true)) /\
    fs s' = fs s /\
    fetched (log s') = fetched (log s) ++ [stream_url] /\
    written (log s') = written (log s).
Proof.
  unfold analyze_song. run_m.
  destruct (requests_get (world s) stream_url) as [w [[status_code content]|]]; run_m.
  - destruct (status_code =? 200)%Z eqn:Hstatus; run_m.
    + apply Z.eqb_eq in Hstatus. subst status_code.
      destruct (bpm_and_key content) as [[tempo label]|] eqn:Hkey; run_m.
      * destruct (bpm_and_key_label _ _ _ Hkey) as [Hin Hne].
        eexists _, _, _. split; [reflexivity|]. simpl. split.
        -- right. exists content, tempo, label. repeat split; try done.
           apply negb_true_iff. by apply String.eqb_neq.
        -- by simpl_logs.
      * eexists _, _, _. split; [reflexivity|]. simpl. split.
        -- left. repeat split. intros c t l [= <-]. congruence.
        -- by simpl_logs.
    + eexists _, _, _. split; [reflexivity|]. simpl. split.
      * left. repeat split. intros c t l [= -> _]. done.
      * by simpl_logs.
  - eexists _, _, _. split; [reflexivity|]. simpl. split.
    + left. repeat split. intros c t l [=].
    + by simpl_logs.
Qed.

Lemma dict_set_keys {A : Type} (k x : string) (v : A) (d : list (string * A)) :
  x ∈ map fst (dict_set k v d) -> x ∈ map fst d \/ x = k.
Proof.
  induction d as [|[k' v'] d IH]; simpl.
  - intros H. apply list_elem_of_singleton in H. by right.
  - destruct (String.eqb k' k) eqn:E; simpl.
    + apply String.eqb_eq in E. subst k'. by left.
    + intros H. apply elem_of_cons in H as [->|H]; [left; left|].
      destruct (IH H) as [?|?]; [left; by right|by right].
Qed.

Lemma dict_set_unique_keys (k : string) (v : value) (r : record) :
  unique_keys r -> unique_keys (dict_set k v r).
Proof.
  unfold unique_keys. induction r as [|[k' v'] r IH]; simpl; intros Hnd.
  - apply NoDup_singleton.
  - apply NoDup_cons in Hnd as [Hnotin Hnd].
    destruct (String.eqb k' k) eqn:E; simpl.
    + apply String.eqb_eq in E. subst k'. by apply NoDup_cons.
    + apply NoDup_cons. split; [|by apply IH].
      intros Hin. apply dict_set_keys in Hin as [?| ->]; [done|].
      by rewrite String.eqb_refl in E.
Qed.

Lemma same_except_refl (keys : list string) (songs : list record) :
  same_except keys songs songs.
Proof. by repeat split. Qed.

Lemma same_except_trans (keys : list string) (a b c : list record) :
  same_except keys a b -> same_except keys b c -> same_except keys a c.
Proof.
  intros (L1 & K1 & U1) (L2 & K2 & U2). split; [congruence|]. split; [|auto].
  intros k Hk. by rewrite K2, K1.
Qed.

(** Setting keys of [keys] in the record at [i] keeps the rest. *)
Lemma same_except_insert (keys : list string) (songs : list record) (i : nat)
    (song song' : record) :
  songs !! i = Some song ->
  (forall k, k ∉ keys -> dict_get k song' = dict_get k song) ->
  (unique_keys song -> unique_keys song') ->
  same_except keys songs (<[i := song']> songs).
Proof.
  intros Hsong Hget Huniq. split; [apply length_insert|]. split.
  - intros k Hk. eapply map_insert_same; [done|]. by apply Hget.
  - intros Hall. apply Forall_insert; [done|]. apply Huniq.
    eapply Forall_lookup_1; [exact Hall|exact Hsong].
Qed.

Lemma saved_refl (output_file : string) (x : list record * state) : saved output_file x x.
Proof. by left. Qed.

Lemma saved_trans (output_file : string) (x y z : list record * state) :
  saved output_file x y -> saved output_file y z -> saved output_file x z.
Proof.
  intros [[E1 S1]|S1] [[E2 S2]|S2].
  - left. split; congruence.
  - right. by rewrite S2, S1.
  - right. by rewrite S2, S1, E2.
  - right. by rewrite S2, S1, insert_insert_eq.
Qed.

Lemma paced_refl (output_file : string) (l : list event) : paced output_file l l 0.
Proof. unfold paced. simpl. rewrite !app_nil_r. repeat split; lia. Qed.

Lemma paced_trans (output_file : string) (l1 l2 l3 : list event) (n m : nat) :
  paced output_file l1 l2 n -> paced output_file l2 l3 m ->
  paced output_file l1 l3 (n + m).
Proof.
  intros (F1 & W1 & P1 & R1) (F2 & W2 & P2 & R2). unfold paced.
  rewrite W2, W1, P2, P1, !replicate_add, <- !app_assoc. repeat split; lia.
Qed.

(** One iteration of stage 2: it returns; it leaves the list as it was or
    attaches a tempo other than 0.0 and one of the 12 labels to its
    record; it leaves the list and the files as they were or saves the
    list; it fetches at most once, saving and sleeping one second after a
    fetch. *)
Lemma process_song_shape (output_file : string) (songs : list record) (i : nat) (s : state) :
  exists songs' s',
    process_song output_file songs i s = (Done songs', s') /\
    (songs' = songs \/
     exists song tempo label,
       songs !! i = Some song /\ F_eqb tempo F_zero = false /\ label ∈ key_mapping /\
       songs' = <[i := dict_set "key" (VStr label) (dict_set "bpm" (VFloat tempo) song)]>
                  songs) /\
    saved output_file (songs, s) (songs', s') /\
    exists n, paced output_file (log s) (log s') n.
Proof.
  unfold process_song, get_stream_url, analyze_song, saved, paced.
  destruct (songs !! i) as [song|] eqn:Hsong.
  - run_cases.
    all: eexists _, _; (split; [reflexivity|]); simpl.
    all: split; [|split; [first [by left|by right]|]].
    all: try (first [exists 0%nat; simpl_logs; rewrite ?length_app; simpl;
                     repeat split; (done || lia)
                    |exists 1%nat; simpl_logs; rewrite ?length_app; simpl;
                     repeat split; (done || lia)]).
    all: try by left.
    all: right; eexists song, _, _; split; [done|].
    all: match goal with H : _ && _ = true |- _ => apply andb_true_iff in H as [Ht _] end.
    all: apply negb_true_iff in Ht.
    all: match goal with H : bpm_and_key _ = Some _ |- _ =>
           apply bpm_and_key_label in H as [Hin _] end.
    all: by repeat split.
  - run_m. eexists _, _. split; [reflexivity|]. split; [by left|]. split; [by left|].
    exists 0%nat. apply paced_refl.
Qed.

(** The loops of stage 2 keep a relation that its iterations keep and
    that printing does not affect. *)
Lemma process_genres_rel (output_file : string)
    (R : list record * state -> list record * state -> Prop) :
  (forall x, R x x) ->
  (forall x y z, R x y -> R y z -> R x z) ->
  (forall songs s m, R (songs, s) (songs, emit (EPrint m) s)) ->
  (forall songs i s, exists songs' s',
     process_song output_file songs i s = (Done songs', s') /\ R (songs, s) (songs', s')) ->
  forall groups songs s, exists songs' s',
    fold_m (process_genre output_file) groups songs s = (Done songs', s') /\
    R (songs, s) (songs', s').
Proof.
  intros Hrefl Htrans Hprint Hstep.
  apply fold_m_rel; try done.
  intros songs group s. unfold process_genre, mbind, M_bind, print. simpl.
  destruct (fold_m_rel (process_song output_file) R Hrefl Htrans Hstep (snd group) songs
              (emit (EPrint (MsgGenre (fst group) (length (snd group)))) s))
    as (songs' & s' & -> & HR).
  exists songs', s'. split; [done|]. eapply Htrans; [apply Hprint|exact HR].
Qed.






(** X6. A genre that is a list or a dictionary makes stage 2 raise
    [TypeError], which nothing catches, before any record is processed:
    no request is made and no file is written. *)
Theorem process_songs_unhashable_genre (input_file output_file : string)
    (songs : list record) (song : record) (s : state) :
  fs s !! input_file = Some (Json songs) ->
  song ∈ songs ->
  hashable (genre_of song) = false ->
  process_songs input_file output_file s = (Raised TypeError, s).
Proof.
  intros Hfile Hin Hhash.
  assert (sort_loop 0 songs [] = None) as Hsort.
  { apply sort_loop_unhashable. by exists song. }
  unfold process_songs, process_loaded, sort_songs_by_genre. run_m. rewrite Hfile. run_m.
  rewrite Hsort. by run_m.
Qed.

Lemma process_song_paced (output_file : string) (songs : list record) (i : nat) (s : state) :
  exists songs' s',
    process_song output_file songs i s = (Done songs', s') /\
    exists n, paced output_file (log s) (log s') n.
Proof.
  destruct (process_song_shape output_file songs i s) as (songs' & s' & Hrun & _ & _ & Hp).
  by exists songs', s'.
Qed.

(** X7. Stage 2 paces its fetches, not its resolver requests: a run makes [n]
    fetches, each after a resolver request of its own, and saves the list
    to the output file and sleeps one second [n] times; it writes no other
    file and does not sleep after a record that it skips before the
    fetch. *)
Theorem process_songs_pacing (input_file output_file : string) (songs : list record)
    (s : state) :
  fs s !! input_file = Some (Json songs) ->
  Forall (fun song => hashable (genre_of song) = true) songs ->
  exists s' n,
    process_songs input_file output_file s = (Done tt, s') /\
    length (fetched (log s')) = (length (fetched (log s)) + n)%nat /\
    written (log s') = written (log s) ++ replicate n output_file /\
    pauses (log s') = pauses (log s) ++ replicate n 1%Z /\
    (length (resolves (log s)) + n <= length (resolves (log s')))%nat.
Proof.
  intros Hfile Hhash.
  destruct (sort_loop_hashable songs 0 [] Hhash) as [groups Hgroups].
  destruct (process_genres_rel output_file
              (fun x y => exists n, paced output_file (log (snd x)) (log (snd y)) n)
              ltac:(intros x; exists 0%nat; apply paced_refl)
              ltac:(intros x y z [n Hn] [m Hm]; exists (n + m)%nat; by eapply paced_trans)
              ltac:(intros l st m; exists 0%nat; unfold paced; simpl_logs;
                    repeat split; lia)
              (process_song_paced output_file) groups songs s)
    as (final & s' & Hrun & n & Hpaced).
  simpl in Hpaced.
  unfold process_songs, process_loaded, sort_songs_by_genre. run_m. rewrite Hfile. run_m.
  rewrite Hgroups. run_m. unfold mbind, M_bind in Hrun. rewrite Hrun. run_m.
  eexists _, n. split; [reflexivity|]. exact Hpaced.
Qed.

(** ** What the deep analysis returns *)

(** The parts of the features agree: one energy entry per section, with
    the section starts as first components, and the bars, put end to end,
    are the beat times. *)
Definition consistent (f : features) : Prop :=
  map fst (energy f) = sections (f_structure f) /\
  length (energy f) = length (sections (f_structure f)) /\
  concat (bars (f_structure f)) = beat_times (f_rhythm f).

Lemma energy_loop_fst (rms frame_times segment_times rest : list F) (i : nat)
    (out : list (F * F)) :
  energy_loop rms frame_times segment_times i rest = Some out -> map fst out = rest.
Proof.
  revert i out. induction rest as [|start_time rest IH]; intros i out; simpl.
  - by intros [= <-].
  - destruct (if (Z.of_nat i <? Z.of_nat (length segment_times) - 1)%Z
              then segment_times !! (i + 1)%nat else py_last frame_times)
      as [end_time|]; simpl; [|done].
    destruct (energy_loop rms frame_times segment_times (S i) rest) as [tl|] eqn:E;
      simpl; [|done].
    intros [= <-]. simpl. by rewrite (IH _ _ E).
Qed.

Lemma concat_map_map {A B : Type} (f : A -> B) (l : list (list A)) :
  concat (map (map f) l) = map f (concat l).
Proof. induction l as [|g l IH]; simpl; [done|]. by rewrite map_app, IH. Qed.

Lemma analyze_song_deep_features (y : Samples) (sr : Z) (f : features) :
  analyze_song_deep y sr = Some f ->
  consistent f /\
  exists mfcc boundaries beat_tempo beat_frames,
    feature_mfcc y sr = Some mfcc /\
    segment_agglomerative mfcc 4 = Some boundaries /\
    beat_track y sr = Some (beat_tempo, beat_frames) /\
    sections (f_structure f) = map (frames_to_time sr default_hop) boundaries /\
    tempo (f_rhythm f) = beat_tempo /\
    beat_times (f_rhythm f) = map (frames_to_time sr default_hop) beat_frames.
Proof.
  unfold analyze_song_deep, extract_structure, extract_rhythm, extract_energy_by_section.
  destruct (feature_mfcc y sr) as [mfcc|]; simpl; [|done].
  destruct (segment_agglomerative mfcc 4) as [boundaries|] eqn:Hseg; simpl; [|done].
  destruct (beat_track y sr) as [[beat_tempo beat_frames]|]; simpl; [|done].
  destruct (feature_rms y 2048 512) as [rms|]; simpl; [|done].
  destruct (energy_loop _ _ _ _ _) as [out|] eqn:E; simpl; [|done].
  intros [= <-]. simpl. apply energy_loop_fst in E.
  split; [|by exists mfcc, boundaries, beat_tempo, beat_frames].
  unfold consistent. simpl. split; [done|]. split.
  - rewrite <- E. by rewrite length_map.
  - by rewrite concat_map_map, bar_groups_concat by lia.
Qed.

(** X8. [analyze_song_deep] returns when the five library calls do and the
    RMS has a frame; it raises when the MFCC, the beat tracking or the RMS
    call does.  What it returns is coherent: the energy has one entry per
    section, with the sections' starts, in order; the bars put end to end
    are the beat times of the rhythm; sections and beat times are the
    boundaries and the beat frames converted with the default hop length,
    and the tempo is the tracker's. *)
Theorem analyze_song_deep_coherent (y : Samples) (sr : Z) :
  (forall mfcc boundaries beat rms,
     feature_mfcc y sr = Some mfcc ->
     segment_agglomerative mfcc 4 = Some boundaries ->
     beat_track y sr = Some beat ->
     feature_rms y 2048 512 = Some rms ->
     rms <> [] ->
     exists f, analyze_song_deep y sr = Some f) /\
  (feature_mfcc y sr = None \/ beat_track y sr = None \/ feature_rms y 2048 512 = None ->
   analyze_song_deep y sr = None) /\
  (forall f, analyze_song_deep y sr = Some f ->
     consistent f /\
     exists mfcc boundaries beat_tempo beat_frames,
       feature_mfcc y sr = Some mfcc /\
       segment_agglomerative mfcc 4 = Some boundaries /\
       beat_track y sr = Some (beat_tempo, beat_frames) /\
       sections (f_structure f) = map (frames_to_time sr default_hop) boundaries /\
       tempo (f_rhythm f) = beat_tempo /\
       beat_times (f_rhythm f) = map (frames_to_time sr default_hop) beat_frames).
Proof.
  split; [|split].
  - intros mfcc boundaries [beat_tempo beat_frames] rms Hmfcc Hseg Hbeat Hrms Hne.
    destruct (extract_energy_entries y sr
                (map (frames_to_time sr default_hop) boundaries) 2048 512 rms Hrms Hne)
      as (out & Hout & _).
    unfold analyze_song_deep, extract_structure, extract_rhythm.
    rewrite Hmfcc. simpl. rewrite Hseg. simpl. rewrite Hbeat. simpl.
    rewrite Hout. simpl. eauto.
  - unfold analyze_song_deep, extract_structure, extract_rhythm, extract_energy_by_section.
    intros [H|[H|H]].
    + by rewrite H.
    + destruct (feature_mfcc y sr); simpl; [|done].
      destruct (segment_agglomerative _ _); simpl; [|done]. by rewrite H.
    + destruct (feature_mfcc y sr); simpl; [|done].
      destruct (segment_agglomerative _ _); simpl; [|done].
      destruct (beat_track y sr) as [[? ?]|]; simpl; [|done]. by rewrite H.
  - apply analyze_song_deep_features.
Qed.

(** ** The last frame *)

Lemma frame_times_of_snoc (rms : list F) (x : F) (sr hop_length : Z) :
  frame_times_of (rms ++ [x]) sr hop_length
  = frame_times_of rms sr hop_length
    ++ [frames_to_time sr hop_length (Z.of_nat (length rms))].
Proof.
  unfold frame_times_of. rewrite length_app. simpl.
  by rewrite seq_app, map_app.
Qed.

Lemma mask_select_snoc {A : Type} (xs : list A) (x : A) (mask : list bool) (b : bool) :
  length mask = length xs ->
  mask_select (xs ++ [x]) (mask ++ [b]) = mask_select xs mask ++ (if b then [x] else []).
Proof.
  unfold mask_select. revert mask.
  induction xs as [|a xs IH]; intros [|c mask] Hlen; simpl in *; try done.
  - by destruct b.
  - injection Hlen as Hlen. destruct c; simpl; by rewrite IH.
Qed.

(** X9. The range of the last section ends, open, at the time of the last
    frame: that frame is never counted.  With the frames [rms ++ [x]] the
    energy of the last section is the average over the frames of [rms]
    alone, and it is 0.0 when [x] is the only frame. *)
Theorem last_frame_not_counted (y : Samples) (sr : Z) (earlier : list F) (start_time : F)
    (frame_length hop_length : Z) (rms : list F) (x : F) :
  let last_time := frames_to_time sr hop_length (Z.of_nat (length rms)) in
  feature_rms y frame_length hop_length = Some (rms ++ [x]) ->
  F_ltb last_time last_time = false ->
  exists out,
    extract_energy_by_section y sr (earlier ++ [start_time]) frame_length hop_length
    = Some out /\
    last out
    = Some (start_time,
            average_energy
              (section_frames rms (frame_times_of rms sr hop_length) start_time last_time)) /\
    (rms = [] -> last out = Some (start_time, F_zero)).
Proof.
  intros last_time Hrms Hirr. subst last_time.
  destruct (extract_energy_entries y sr (earlier ++ [start_time]) frame_length hop_length
              (rms ++ [x]) Hrms ltac:(by destruct rms))
    as (out & Hout & Hfst & Hentries).
  destruct (Hentries (length earlier) start_time) as (end_time & Hend & Hlook).
  { rewrite lookup_app_r by lia. by rewrite Nat.sub_diag. }
  unfold section_end in Hend.
  rewrite lookup_ge_None_2 in Hend by (rewrite length_app; simpl; lia).
  rewrite frame_times_of_snoc, last_snoc in Hend. injection Hend as <-.
  assert (section_frames (rms ++ [x]) (frame_times_of (rms ++ [x]) sr hop_length)
            start_time (frames_to_time sr hop_length (Z.of_nat (length rms)))
          = section_frames rms (frame_times_of rms sr hop_length) start_time
              (frames_to_time sr hop_length (Z.of_nat (length rms))))
    as Hsame.
  { unfold section_frames. rewrite frame_times_of_snoc, map_app. simpl.
    rewrite mask_select_snoc by by rewrite length_map, frame_times_of_length.
    rewrite Hirr, andb_false_r. by rewrite app_nil_r. }
  rewrite Hsame in Hlook.
  assert (last out = out !! length earlier) as Hlast.
  { rewrite last_lookup. f_equal.
    apply (f_equal length) in Hfst. rewrite length_map, length_app in Hfst.
    simpl in Hfst. lia. }
  exists out. split; [done|]. rewrite Hlast. split; [done|].
  intros ->. by rewrite Hlook.
Qed.

(** ** Cleaning a cleaned list *)

Lemma analyzed_not_missing (r : record) : analyzed r -> missing_bpm_or_key r = false.
Proof.
  intros (tempo & label & Hbpm & _ & Hkey & _).
  unfold missing_bpm_or_key, dict_has. by rewrite Hbpm, Hkey.
Qed.

Lemma cleaned_songs_all (songs : list record) :
  Forall (fun r => missing_bpm_or_key r = false) songs -> cleaned_songs songs = songs.
Proof.
  induction 1 as [|r songs Hr Hall IH]; simpl; [done|].
  unfold missing_bpm_or_key in Hr. apply orb_false_iff in Hr as [H1 H2].
  apply negb_false_iff in H1, H2. rewrite H1, H2. simpl. by rewrite IH.
Qed.

Lemma cleaned_songs_kept (songs : list record) :
  Forall (fun r => missing_bpm_or_key r = false) (cleaned_songs songs).
Proof.
  apply Forall_forall. intros r Hin. apply list_elem_of_In in Hin.
  apply filter_In in Hin as [_ H]. apply andb_true_iff in H as [H1 H2].
  unfold missing_bpm_or_key. by rewrite H1, H2.
Qed.

Lemma cleaned_songs_built (songs : list record) :
  Forall built_by_stage1 songs -> cleaned_songs songs = [].
Proof. induction 1 as [|r l [t ->] Hall IH]; simpl; [done|]. exact IH. Qed.

(** X10. Cleaning a file in place replaces it by its cleaned list, and a second
    cleaning changes nothing more; the cleanup is the identity on a list
    whose records all have both keys; it keeps every record that stage 2
    analyzed, and it drops every record that stage 1 built. *)
Theorem clean_in_place (path : string) (songs : list record) (s : state) :
  fs s !! path = Some (Json songs) ->
  (exists s1 s2,
     clean_analyzed_songs path path s = (Done tt, s1) /\
     fs s1 = <[path := Json (cleaned_songs songs)]> (fs s) /\
     clean_analyzed_songs path path s1 = (Done tt, s2) /\
     fs s2 = fs s1) /\
  cleaned_songs (cleaned_songs songs) = cleaned_songs songs /\
  (Forall (fun r => missing_bpm_or_key r = false) songs -> cleaned_songs songs = songs) /\
  (forall r, r ∈ songs -> analyzed r -> r ∈ cleaned_songs songs) /\
  (Forall built_by_stage1 songs -> cleaned_songs songs = []).
Proof.
  intros Hfile.
  assert (cleaned_songs (cleaned_songs songs) = cleaned_songs songs) as Hidem.
  { apply cleaned_songs_all, cleaned_songs_kept. }
  split; [|split; [done|split; [apply cleaned_songs_all|split]]].
  - eexists _, _. split; [|split; [|split]].
    + unfold clean_analyzed_songs, clean_loaded. run_m. rewrite Hfile. run_m. reflexivity.
    + done.
    + unfold clean_analyzed_songs, clean_loaded. run_m. rewrite lookup_insert_eq. run_m.
      reflexivity.
    + simpl. by rewrite Hidem, insert_insert_eq.
  - intros r Hin Han. unfold cleaned_songs. apply list_elem_of_In, filter_In.
    split; [by apply list_elem_of_In|].
    apply analyzed_not_missing in Han. unfold missing_bpm_or_key in Han.
    apply orb_false_iff in Han as [H1 H2]. apply negb_false_iff in H1, H2.
    by rewrite H1, H2.
  - apply cleaned_songs_built.
Qed.

(** ** What stage 3 attaches, saves and paces *)

(** A record with coherent features under ["features"]. *)
Definition featured (r : record) : Prop :=
  exists f, dict_get "features" r = Some (features_value f) /\ consistent f.

(** [m] more fetches, each after a resolver request of its own, of which
    [n] were followed by a save to the output file and a sleep of one
    second. *)
Definition paced_deep (output_file : string) (l l' : list event) (n m : nat) : Prop :=
  length (fetched l') = (length (fetched l) + m)%nat /\
  written l' = written l ++ replicate n output_file /\
  pauses l' = pauses l ++ replicate n 1%Z /\
  (n <= m)%nat /\
  (length (resolves l) + m <= length (resolves l'))%nat.

Lemma deep_analysis_consistent (content : Bytes) (f : features) :
  deep_analysis content = Some f -> consistent f.
Proof.
  unfold deep_analysis. destruct (librosa_load content) as [[y sr]|]; simpl; [|done].
  intros H. by apply analyze_song_deep_features in H as [H _].
Qed.

(** One iteration of stage 3: it returns; either it leaves the list and
    the files as they were, after at most one fetch, or it fetched once,
    put coherent features in its record, saved the list and slept. *)
Lemma analyze_step_shape (output_file : string) (total : nat) (songs : list record)
    (i : nat) (s : state) :
  exists songs' s',
    analyze_step output_file total songs i s = (Done songs', s') /\
    ((songs' = songs /\ fs s' = fs s /\
      exists m, paced_deep output_file (log s) (log s') 0 m) \/
     (exists song f,
        songs !! i = Some song /\ consistent f /\
        songs' = <[i := dict_set "features" (features_value f) song]> songs /\
        fs s' = <[output_file := Json songs']> (fs s) /\
        paced_deep output_file (log s) (log s') 1 1)).
Proof.
  unfold analyze_step, get_stream_url, paced_deep.
  destruct (songs !! i) as [song|] eqn:Hsong.
  - run_cases.
    all: eexists _, _; (split; [reflexivity|]); simpl.
    all: try (left; split; [done|]; split; [done|];
              first [exists 0%nat; simpl_logs; rewrite ?length_app; simpl;
                     repeat split; (done || lia)
                    |exists 1%nat; simpl_logs; rewrite ?length_app; simpl;
                     repeat split; (done || lia)]).
    all: right; eexists song, _; split; [done|].
    all: match goal with H : deep_analysis _ = Some _ |- _ =>
           apply deep_analysis_consistent in H end.
    all: split; [done|]; split; [done|]; split; [done|].
    all: simpl_logs; rewrite ?length_app; simpl; repeat split; (done || lia).
  - run_m. eexists _, _. split; [reflexivity|]. left. split; [done|]. split; [done|].
    exists 0%nat. rewrite !app_nil_r. repeat split; lia.
Qed.

(** What stage 3 keeps of the list, and where it saves it. *)
Definition stage3_kept (output_file : string) (x y : list record * state) : Prop :=
  same_except ["features"] (fst x) (fst y) /\
  (forall i r', fst y !! i = Some r' -> fst x !! i = Some r' \/ featured r') /\
  saved output_file x y.

Lemma stage3_kept_refl (output_file : string) (x : list record * state) :
  stage3_kept output_file x x.
Proof.
  split; [apply same_except_refl|]. split; [intros i r' H; by left|by left].
Qed.

Lemma stage3_kept_trans (output_file : string) (x y z : list record * state) :
  stage3_kept output_file x y -> stage3_kept output_file y z -> stage3_kept output_file x z.
Proof.
  intros (E1 & A1 & S1) (E2 & A2 & S2). split; [|split].
  - by eapply same_except_trans.
  - intros i r' Hz. destruct (A2 i r' Hz) as [Hy|?]; [by apply A1|by right].
  - by eapply saved_trans.
Qed.

Lemma analyze_step_kept (output_file : string) (total : nat) (songs : list record) (i : nat)
    (s : state) :
  exists songs' s',
    analyze_step output_file total songs i s = (Done songs', s') /\
    stage3_kept output_file (songs, s) (songs', s').
Proof.
  destruct (analyze_step_shape output_file total songs i s) as (songs' & s' & Hrun & Hshape).
  exists songs', s'. split; [done|].
  destruct Hshape as [(-> & Hfs & _)|(song & f & Hsong & Hf & -> & Hfs & _)].
  - split; [apply same_except_refl|]. split; [intros j r' H; by left|by left].
  - split; [|split]; simpl.
    + apply (same_except_insert _ _ _ song); [done| |].
      * intros k Hk. rewrite dict_get_set_ne; [done|]. intros <-. apply Hk. left.
      * apply dict_set_unique_keys.
    + intros j r' Hj. destruct (decide (i = j)) as [<-|Hne].
      * rewrite list_lookup_insert_eq in Hj by by eapply lookup_lt_Some.
        injection Hj as <-. right. exists f. by rewrite dict_get_set_eq.
      * rewrite list_lookup_insert_ne in Hj by done. by left.
    + by right.
Qed.

(** X11. Stage 3 returns, and then no file but the output file has changed.
    The output file is as it was (no analysis succeeded), or it holds a
    list with as many records as the input: at each position the input's
    record or a record with coherent features, and in both cases with the
    input's value under every key but ["features"], [bpm] and [key]
    included; when the records of the input have no key twice, neither
    have those. *)
Theorem analyze_songs_output (input_file output_file : string) (songs : list record)
    (s : state) :
  fs s !! input_file = Some (Json songs) ->
  exists s',
    analyze_songs input_file output_file s = (Done tt, s') /\
    (fs s' = fs s \/
     exists final,
       fs s' = <[output_file := Json final]> (fs s) /\
       same_except ["features"] songs final /\
       forall i r', final !! i = Some r' -> songs !! i = Some r' \/ featured r').
Proof.
  intros Hfile.
  destruct (fold_m_rel (analyze_step output_file (length songs)) (stage3_kept output_file)
              (stage3_kept_refl output_file) (stage3_kept_trans output_file)
              (analyze_step_kept output_file (length songs))
              (seq 0 (length songs)) songs s)
    as (final & s' & Hrun & Hsame & Hfeatured & Hsaved).
  simpl in *.
  unfold analyze_songs, analyze_loaded. run_m. rewrite Hfile. run_m.
  unfold mbind, M_bind in Hrun. rewrite Hrun. run_m.
  eexists. split; [reflexivity|]. simpl.
  destruct Hsaved as [[_ Hfs]|Hfs]; [by left|]. right. by exists final.
Qed.

(** What the iteration of stage 3 for one record comes to: the record is
    skipped before any fetch, its fetch or its analysis fails, or the
    analysis succeeds with features. *)
Inductive outcome : Type :=
| Skipped
| Failed
| Analyzed (f : features).

(** The outcome for a record with the URL [track_url] in the world [w],
    and the world after its requests: the analysis succeeds when the URL
    is truthy, the resolver gives a stream URL other than the empty
    string, the request answers 200 and decoding and the deep analysis
    return. *)
Definition deep_outcome (track_url : value) (w : World) : World * outcome :=
  if negb (truthy track_url) then (w, Skipped)
  else
    let (w1, stream_url) := api_stream_url w track_url in
    match stream_url with
    | Some (Some url) =>
        if negb (truthy (VStr url)) then (w1, Skipped)
        else
          let (w2, r) := requests_get w1 url in
          match r with
          | Some (status_code, content) =>
              if negb (status_code =? 200)%Z then (w2, Failed)
              else match deep_analysis content with
                   | Some f => (w2, Analyzed f)
                   | None => (w2, Failed)
                   end
          | None => (w2, Failed)
          end
    | _ => (w1, Skipped)
    end.

(** The outcomes of the records with the URLs [urls], in order, each in
    the world that the requests before it leave. *)
Fixpoint deep_outcomes (urls : list value) (w : World) : list outcome :=
  match urls with
  | [] => []
  | track_url :: urls' =>
      let (w', o) := deep_outcome track_url w in o :: deep_outcomes urls' w'
  end.

Definition succeeded (o : outcome) : bool :=
  match o with Analyzed _ => true | _ => false end.

Definition was_fetched (o : outcome) : bool :=
  match o with Skipped => false | _ => true end.

(** The record after its iteration. *)
Definition with_outcome (song : record) (o : outcome) : record :=
  match o with
  | Analyzed f => dict_set "features" (features_value f) song
  | _ => song
  end.

Fixpoint with_outcomes (songs : list record) (outs : list outcome) : list record :=
  match songs, outs with
  | song :: songs', o :: outs' => with_outcome song o :: with_outcomes songs' outs'
  | _, _ => songs
  end.

Lemma succeeded_was_fetched (outs : list outcome) :
  (length (List.filter succeeded outs) <= length (List.filter was_fetched outs))%nat.
Proof.
  induction outs as [|[| |f] outs IH]; simpl; lia.
Qed.

Lemma with_outcomes_none (songs : list record) (outs : list outcome) :
  List.filter succeeded outs = [] -> with_outcomes songs outs = songs.
Proof.
  revert outs. induction songs as [|song songs IH]; intros [|[| |f] outs] H; simpl in *;
    try done; by rewrite IH.
Qed.

(** The outcome is a success exactly when the URL of the record is
    truthy, the resolver gives a stream URL other than the empty string,
    the request answers 200 and the deep analysis of the content returns. *)
Lemma deep_outcome_analyzed (track_url : value) (w : World) (f : features) :
  snd (deep_outcome track_url w) = Analyzed f <->
  truthy track_url = true /\
  exists url content,
    snd (api_stream_url w track_url) = Some (Some url) /\ url <> "" /\
    snd (requests_get (fst (api_stream_url w track_url)) url) = Some (200%Z, content) /\
    deep_analysis content = Some f.
Proof.
  unfold deep_outcome. destruct (truthy track_url); simpl; [|split; [done|by intros [? _]]].
  destruct (api_stream_url w track_url) as [w1 [[url|]|]]; simpl.
  2, 3: split; [done|by intros (_ & ? & ? & ? & _)].
  destruct (String.eqb_spec url "") as [->|Hurl]; simpl.
  { split; [done|]. by intros (_ & ? & ? & [= <-] & ? & _). }
  destruct (requests_get w1 url) as [w2 r] eqn:Hget. split.
  - intros Hout. split; [done|]. exists url. rewrite Hget. simpl.
    destruct r as [[status_code content]|]; [|done].
    destruct (Z.eqb_spec status_code 200) as [->|Hstatus]; simpl in Hout; [|done].
    destruct (deep_analysis content) as [f'|] eqn:Hdeep; [|done].
    injection Hout as ->. by exists content.
  - intros (_ & url0 & content & [= <-] & _ & Hr & Hdeep).
    rewrite Hget in Hr. simpl in Hr. subst r. simpl. by rewrite Hdeep.
Qed.

(** One iteration of stage 3 against its outcome: it leaves the world of
    the outcome; it fetches unless the record is skipped; it puts the
    features in the record, saves the list and sleeps when the analysis
    succeeded, and only then. *)
Lemma analyze_step_outcome (output_file : string) (total : nat) (songs : list record)
    (i : nat) (song : record) (s : state) :
  songs !! i = Some song ->
  let o := snd (deep_outcome (track_url_of song) (world s)) in
  exists s',
    analyze_step output_file total songs i s
    = (Done (<[i := with_outcome song o]> songs), s') /\
    world s' = fst (deep_outcome (track_url_of song) (world s)) /\
    fs s' = (if succeeded o
             then <[output_file := Json (<[i := with_outcome song o]> songs)]> (fs s)
             else fs s) /\
    length (fetched (log s'))
    = (length (fetched (log s)) + (if was_fetched o then 1 else 0))%nat /\
    written (log s') = written (log s) ++ (if succeeded o then [output_file] else []) /\
    pauses (log s') = pauses (log s) ++ (if succeeded o then [1%Z] else []).
Proof.
  intros Hsong. unfold analyze_step, deep_outcome, get_stream_url. rewrite Hsong.
  run_cases.
  all: eexists; simpl; rewrite ?(list_insert_id _ _ _ Hsong).
  all: (split; [reflexivity|]); simpl; simpl_logs; rewrite ?length_app; simpl.
  all: repeat split; (done || lia).
Qed.

(** The loop of stage 3 from any position: the records before it are
    kept, the others get their outcomes. *)
Lemma analyze_steps_outcomes (output_file : string) (total : nat) (rest : list record) :
  forall (pre : list record) (s : state),
    let outs := deep_outcomes (map track_url_of rest) (world s) in
    exists s',
      fold_m (analyze_step output_file total) (seq (length pre) (length rest))
        (pre ++ rest) s
      = (Done (pre ++ with_outcomes rest outs), s') /\
      length (fetched (log s'))
      = (length (fetched (log s)) + length (List.filter was_fetched outs))%nat /\
      written (log s')
      = written (log s) ++ replicate (length (List.filter succeeded outs)) output_file /\
      pauses (log s')
      = pauses (log s) ++ replicate (length (List.filter succeeded outs)) 1%Z /\
      fs s' = (if List.filter succeeded outs is [] then fs s
               else <[output_file := Json (pre ++ with_outcomes rest outs)]> (fs s)).
Proof.
  induction rest as [|song rest IH]; intros pre s; simpl.
  - exists s. rewrite !app_nil_r. repeat split; lia.
  - assert ((pre ++ song :: rest) !! length pre = Some song) as Hsong
      by (by rewrite list_lookup_middle).
    destruct (analyze_step_outcome output_file total _ _ _ s Hsong)
      as (s1 & Hrun & Hworld & Hfs & Hf & Hw & Hp).
    destruct (deep_outcome (track_url_of song) (world s)) as [w1 o] eqn:Hout.
    simpl in Hrun, Hworld, Hfs, Hf, Hw, Hp.
    rewrite insert_app_r_alt, Nat.sub_diag in Hrun, Hfs by lia. simpl in Hrun, Hfs.
    destruct (IH (pre ++ [with_outcome song o]) s1)
      as (s2 & Hrun2 & Hf2 & Hw2 & Hp2 & Hfs2).
    rewrite length_app, Nat.add_1_r, <- app_assoc, Hworld in Hrun2. simpl in Hrun2.
    rewrite <- app_assoc, Hworld in Hfs2. simpl in Hfs2.
    rewrite Hworld in Hf2, Hw2, Hp2.
    exists s2. split.
    { unfold mbind, M_bind. rewrite Hrun, Hrun2. by rewrite <- app_assoc. }
    rewrite Hf2, Hw2, Hp2, Hf, Hw, Hp, Hfs2, Hfs.
    destruct o as [| |f]; simpl; rewrite ?app_nil_r, <- ?app_assoc; simpl.
    1, 2: repeat split; (done || lia).
    split; [lia|]. split; [done|]. split; [done|].
    destruct (List.filter succeeded (deep_outcomes (map track_url_of rest) w1)) eqn:Hnone.
    + by rewrite (with_outcomes_none _ _ Hnone).
    + by rewrite insert_insert_eq.
Qed.

(** X12. Stage 3 saves and sleeps after an analysis that succeeded, and
    only then.  With [outs] the outcomes of the records of the file, in
    order, in the world as the run finds it: the run returns; it fetches
    once for each record that is not skipped, and it saves the list to the
    output file and sleeps one second once for each record whose analysis
    succeeded, so never more often than it fetches.  When no analysis
    succeeds no file is written; otherwise the output file holds at the
    end the records with the features of the analyses that succeeded, and
    no other file has changed.  An analysis succeeds exactly when the URL
    of its record is truthy, the resolver gives a stream URL other than
    the empty string, the request answers 200 and decoding and the deep
    analysis return. *)
Theorem analyze_songs_pacing (input_file output_file : string) (songs : list record)
    (s : state) :
  fs s !! input_file = Some (Json songs) ->
  let outs := deep_outcomes (map track_url_of songs) (world s) in
  exists s',
    analyze_songs input_file output_file s = (Done tt, s') /\
    length (fetched (log s'))
    = (length (fetched (log s)) + length (List.filter was_fetched outs))%nat /\
    written (log s')
    = written (log s) ++ replicate (length (List.filter succeeded outs)) output_file /\
    pauses (log s')
    = pauses (log s) ++ replicate (length (List.filter succeeded outs)) 1%Z /\
    (length (List.filter succeeded outs) <= length (List.filter was_fetched outs))%nat /\
    (List.filter succeeded outs = [] -> fs s' = fs s) /\
    (List.filter succeeded outs <> [] ->
     fs s' = <[output_file := Json (with_outcomes songs outs)]> (fs s)) /\
    (forall track_url w f,
       snd (deep_outcome track_url w) = Analyzed f <->
       truthy track_url = true /\
       exists url content,
         snd (api_stream_url w track_url) = Some (Some url) /\ url <> "" /\
         snd (requests_get (fst (api_stream_url w track_url)) url)
         = Some (200%Z, content) /\
         deep_analysis content = Some f).
Proof.
  intros Hfile outs.
  destruct (analyze_steps_outcomes output_file (length songs) songs [] s)
    as (s' & Hrun & Hf & Hw & Hp & Hfs).
  simpl in Hrun, Hfs. fold outs in Hrun, Hf, Hw, Hp, Hfs.
  unfold analyze_songs, analyze_loaded. run_m. rewrite Hfile. run_m.
  unfold mbind, M_bind in Hrun. rewrite Hrun. run_m.
  eexists. split; [reflexivity|]. simpl.
  split; [exact Hf|]. split; [exact Hw|]. split; [exact Hp|].
  split; [apply succeeded_was_fetched|].
  split; [by destruct (List.filter succeeded outs)|].
  split; [by destruct (List.filter succeeded outs)|].
  apply deep_outcome_analyzed.
Qed.

(** ** What stage 1 requests and saves *)

(** A loop whose steps each keep [R 1] keeps [R] at the number of its
    iterations. *)
Lemma fold_m_counted {A S : Type} (step : S -> A -> M S)
    (R : nat -> S * state -> S * state -> Prop) :
  (forall x, R 0%nat x x) ->
  (forall n m x y z, R n x y -> R m y z -> R (n + m)%nat x z) ->
  (forall acc a s,
     exists acc' s', step acc a s = (Done acc', s') /\ R 1%nat (acc, s) (acc', s')) ->
  forall l acc s,
    exists acc' s',
      fold_m step l acc s = (Done acc', s') /\ R (length l) (acc, s) (acc', s').
Proof.
  intros Hrefl Htrans Hstep l. induction l as [|a l IH]; intros acc s.
  - exists acc, s. split; [done|]. apply Hrefl.
  - destruct (Hstep acc a s) as (acc1 & s1 & Hrun1 & HR1).
    destruct (IH acc1 s1) as (acc2 & s2 & Hrun2 & HR2).
    exists acc2, s2. rewrite fold_m_cons, Hrun1, Hrun2. split; [done|].
    apply (Htrans 1%nat (length l) _ _ _ HR1 HR2).
Qed.

(** [c] more resolver requests and nothing else: no save, no sleep, no
    fetch. *)
Definition resolved_only (c : nat) (x y : list record * state) : Prop :=
  length (resolves (log (snd y))) = (length (resolves (log (snd x))) + c)%nat /\
  written (log (snd y)) = written (log (snd x)) /\
  pauses (log (snd y)) = pauses (log (snd x)) /\
  fetched (log (snd y)) = fetched (log (snd x)).

Lemma track_step_resolved_only (total : nat) (all_tracks : list record) (it : nat * string)
    (s : state) :
  exists all_tracks' s',
    track_step total all_tracks it s = (Done all_tracks', s') /\
    resolved_only 1 (all_tracks, s) (all_tracks', s').
Proof.
  unfold track_step, resolved_only. destruct it as [track_index permalink]. run_m.
  destruct (api_resolve_track (world s) permalink) as [w [t|]]; run_m.
  - destruct (record_in (new_track t) all_tracks); run_m.
    all: eexists _, _; (split; [reflexivity|]); simpl; simpl_logs.
    all: rewrite ?length_app; simpl; repeat split; (done || lia).
  - eexists _, _. split; [reflexivity|]. simpl. simpl_logs.
    rewrite ?length_app; simpl; repeat split; (done || lia).
Qed.

Lemma enumerate1_length {A : Type} (l : list A) : length (enumerate1 l) = length l.
Proof.
  unfold enumerate1. rewrite length_combine, length_seq. lia.
Qed.

(** [c] playlists requested, [n] of them saved to the output file, and
    [k] tracks requested, none when nothing was saved; no sleep and no
    fetch. *)
Definition collected (output_file : string) (c : nat) (x y : list record * state) : Prop :=
  exists n k,
    (n <= c)%nat /\ (n = 0%nat -> k = 0%nat) /\
    length (resolves (log (snd y))) = (length (resolves (log (snd x))) + c + k)%nat /\
    written (log (snd y)) = written (log (snd x)) ++ replicate n output_file /\
    pauses (log (snd y)) = pauses (log (snd x)) /\
    fetched (log (snd y)) = fetched (log (snd x)).

Lemma playlist_step_collected (output_file : string) (total : nat)
    (all_tracks : list record) (it : nat * string) (s : state) :
  exists all_tracks' s',
    playlist_step output_file total all_tracks it s = (Done all_tracks', s') /\
    collected output_file 1 (all_tracks, s) (all_tracks', s').
Proof.
  unfold playlist_step. destruct it as [playlist_index playlist_url]. run_m.
  destruct (api_resolve_playlist (world s) playlist_url) as [w [pl|]]; run_m.
  - match goal with
    | |- context [fold_m ?body ?l ?acc ?st] =>
        destruct (fold_m_counted body resolved_only
                    ltac:(intros x; unfold resolved_only; repeat split; lia)
                    ltac:(intros n m x y z (R1 & W1 & P1 & F1) (R2 & W2 & P2 & F2);
                          unfold resolved_only; repeat split; (congruence || lia))
                    (track_step_resolved_only _) l acc st)
          as (all1 & s1 & -> & (Hres & Hw & Hp & Hf))
    end.
    rewrite enumerate1_length in Hres. simpl in Hres, Hw, Hp, Hf.
    eexists _, _. split; [reflexivity|].
    exists 1%nat, (length (pl_tracks pl)). simpl.
    revert Hres Hw Hp Hf. simpl_logs. intros Hres Hw Hp Hf.
    rewrite Hw, Hp, Hf, ?length_app, Hres, ?length_app. simpl.
    repeat split; (done || lia).
  - eexists _, _. split; [reflexivity|]. exists 0%nat, 0%nat. simpl. simpl_logs.
    rewrite ?length_app; simpl; repeat split; (done || lia).
Qed.

Lemma collected_trans (output_file : string) (c1 c2 : nat) (x y z : list record * state) :
  collected output_file c1 x y -> collected output_file c2 y z ->
  collected output_file (c1 + c2) x z.
Proof.
  intros (n1 & k1 & L1 & Z1 & R1 & W1 & P1 & F1) (n2 & k2 & L2 & Z2 & R2 & W2 & P2 & F2).
  exists (n1 + n2)%nat, (k1 + k2)%nat.
  rewrite W2, W1, P2, P1, F2, F1, replicate_add, <- app_assoc.
  repeat split; try done; lia.
Qed.

Lemma collect_playlists_collected (playlist_urls : list string) (output_file : string)
    (all_tracks : list record) (s : state) :
  exists s',
    collect_playlists playlist_urls output_file all_tracks s = (Done tt, s') /\
    collected output_file (length playlist_urls) (all_tracks, s) (all_tracks, s').
Proof.
  unfold collect_playlists.
  destruct (fold_m_counted (playlist_step output_file (length playlist_urls))
              (collected output_file)
              ltac:(intros x; exists 0%nat, 0%nat; rewrite app_nil_r; repeat split; lia)
              (collected_trans output_file)
              (playlist_step_collected output_file (length playlist_urls))
              (enumerate1 playlist_urls) all_tracks s)
    as (all1 & s1 & Hrun & n & k & Hle & Hz & Hres & Hw & Hp & Hf).
  rewrite enumerate1_length in *. simpl in *.
  unfold mbind, M_bind. rewrite Hrun. run_m.
  eexists. split; [reflexivity|]. exists n, k. simpl. simpl_logs.
  revert Hres Hw Hp Hf. simpl_logs. intros Hres Hw Hp Hf.
  repeat split; done.
Qed.

(** X13. Stage 1 makes one resolver request per playlist URL and [k] more
    for tracks; it saves the store [n] times, at most once per playlist
    URL (and once more, first, when it creates the file), to the output
    file only; when no playlist is saved no track is requested.  It never
    sleeps between requests and never fetches audio. *)
Theorem url_collection_effects (playlist_urls : list string) (output_file : string)
    (s : state) :
  fs s !! output_file <> Some Malformed ->
  exists s' n k,
    url_collection playlist_urls output_file s = (Done tt, s') /\
    (n <= length playlist_urls)%nat /\
    (n = 0%nat -> k = 0%nat) /\
    length (resolves (log s'))
    = (length (resolves (log s)) + length playlist_urls + k)%nat /\
    written (log s')
    = written (log s)
      ++ match fs s !! output_file with None => [output_file] | Some _ => [] end
      ++ replicate n output_file /\
    pauses (log s') = pauses (log s) /\
    fetched (log s') = fetched (log s).
Proof.
  intros Hfile. unfold url_collection. run_m.
  destruct (fs s !! output_file) as [[|loaded]|] eqn:Hout; [done| |]; run_m.
  - rewrite Hout. run_m.
    destruct (collect_playlists_collected playlist_urls output_file loaded s)
      as (s' & Hrun & n & k & Hle & Hz & Hres & Hw & Hp & Hf).
    exists s', n, k. by repeat split.
  - rewrite lookup_insert_eq. run_m.
    match goal with
    | |- context [collect_playlists _ _ _ ?st] =>
        destruct (collect_playlists_collected playlist_urls output_file [] st)
          as (s' & Hrun & n & k & Hle & Hz & Hres & Hw & Hp & Hf)
    end.
    exists s', n, k. simpl in Hres, Hw, Hp, Hf. revert Hres Hw Hp Hf. simpl_logs.
    intros Hres Hw Hp Hf. rewrite <- app_assoc in Hw. by repeat split.
Qed.

(** ** The cleanup followed by stage 3 *)

(** Records that keep their values under ["bpm"] and ["key"] keep both
    keys. *)
Lemma same_except_keeps_both (keys : list string) (songs final : list record) :
  "bpm" ∉ keys -> "key" ∉ keys ->
  same_except keys songs final ->
  Forall (fun r => missing_bpm_or_key r = false) songs ->
  Forall (fun r => missing_bpm_or_key r = false) final.
Proof.
  intros Hb Hk (Hlen & Hget & _) Hall.
  apply Forall_lookup. intros i r' Hi.
  destruct (lookup_lt_is_Some_2 songs i) as [r Hr].
  { rewrite <- Hlen. by eapply lookup_lt_Some. }
  pose proof (Forall_lookup_1 _ _ _ _ Hall Hr) as Hm. simpl in Hm.
  assert (forall k, k ∉ keys -> dict_get k r' = dict_get k r) as Hsame.
  { intros k Hk'.
    assert ((dict_get k <$> final) !! i = (dict_get k <$> songs) !! i) as E
      by exact (f_equal (fun l => l !! i) (Hget k Hk')).
    rewrite !list_lookup_fmap in E. change (list (string * value)) with record in *.
    rewrite Hi, Hr in E. simpl in E. by injection E. }
  unfold missing_bpm_or_key, dict_has in *.
  by rewrite (Hsame "bpm" Hb), (Hsame "key" Hk).
Qed.

Lemma analyze_loaded_kept (output_file : string) (songs : list record) (s : state) :
  exists s',
    analyze_loaded output_file songs s = (Done tt, s') /\
    (fs s' = fs s \/
     exists final,
       fs s' = <[output_file := Json final]> (fs s) /\
       same_except ["features"] songs final).
Proof.
  destruct (fold_m_rel (analyze_step output_file (length songs)) (stage3_kept output_file)
              (stage3_kept_refl output_file) (stage3_kept_trans output_file)
              (analyze_step_kept output_file (length songs))
              (seq 0 (length songs)) songs s)
    as (final & s' & Hrun & Hsame & _ & Hsaved).
  simpl in *. unfold analyze_loaded. unfold mbind, M_bind in *. rewrite Hrun. run_m.
  eexists. split; [reflexivity|]. simpl.
  destruct Hsaved as [[_ Hfs]|Hfs]; [by left|]. right. by exists final.
Qed.

(** X14. The cleanup followed by stage 3 on the cleaned file, as the two
    scripts chain them: both return, and when stage 3 saves, the list it
    saves has as many records as the cleaned list, with the same values
    but for ["features"], and every record of it has both ["bpm"] and
    ["key"]: stage 3 brings back no record that the cleanup dropped and
    removes no key. *)
Theorem clean_then_analyze (input_file cleaned_file output_file : string)
    (songs : list record) (s : state) :
  fs s !! input_file = Some (Json songs) ->
  exists s1 s2,
    clean_analyzed_songs input_file cleaned_file s = (Done tt, s1) /\
    fs s1 = <[cleaned_file := Json (cleaned_songs songs)]> (fs s) /\
    analyze_songs cleaned_file output_file s1 = (Done tt, s2) /\
    (fs s2 = fs s1 \/
     exists final,
       fs s2 = <[output_file := Json final]> (fs s1) /\
       same_except ["features"] (cleaned_songs songs) final /\
       Forall (fun r => missing_bpm_or_key r = false) final).
Proof.
  intros Hfile.
  unfold clean_analyzed_songs, clean_loaded. run_m. rewrite Hfile. run_m.
  eexists _.
  match goal with
  | |- exists s2, (_, ?s1) = _ /\ _ =>
      destruct (analyze_loaded_kept output_file (cleaned_songs songs) s1)
        as (s2 & Hrun & Hfs)
  end.
  exists s2. split; [reflexivity|]. split; [reflexivity|].
  unfold analyze_songs. run_m. rewrite lookup_insert_eq. run_m.
  split; [exact Hrun|].
  destruct Hfs as [Hfs|(final & Hfs & Hsame)]; [by left|]. right.
  exists final. split; [exact Hfs|]. split; [exact Hsame|].
  apply (same_except_keeps_both ["features"] (cleaned_songs songs)); try done.
  - intros H. apply list_elem_of_singleton in H. discriminate.
  - intros H. apply list_elem_of_singleton in H. discriminate.
  - apply cleaned_songs_kept.
Qed.

End Pipeline.

Arguments VNone {F}.
Arguments VBool {F} b.
Arguments VInt {F} n.
Arguments VFloat {F} x.
Arguments VStr {F} s.
Arguments VList {F} l.
Arguments VDict {F} d.
Arguments Malformed {F}.
Arguments Json {F} records.
Arguments EResolve {F} url.
Arguments EGet {F} url.
Arguments EWrite {F} path.
Arguments ESleep {F} seconds.
Arguments EPrint {F} m.
Arguments MsgAnalysisFailed {F}.
Arguments Done {A} a.
Arguments Raised {A} e.
Arguments Build_state {F World} world fs log.
Arguments world {F World} s.
Arguments fs {F World} s.
Arguments log {F World} s.
Arguments resolves {F} l.
Arguments track_url_of {F} song.
Arguments bars {F} s.
Arguments sections {F} s.

(** * A scripted world

    Python floats as Rocq's binary64 floats, and a streaming service with
    three tracks: [u1] streams a tone with five beats at 120 BPM, [u2]
    streams silence, for which the beat tracker reports the tempo 0.0,
    [u3] answers 404; any other URL does not resolve. *)

Local Open Scope float_scope.

Definition float_of_Z (z : Z) : float := PrimFloat.of_uint63 (Uint63.of_Z z).

(** [x == n] for a float and an integer, computed exactly. *)
Definition float_eq_int (x : float) (n : Z) : bool :=
  match Prim2SF x with
  | S754_zero _ => (n =? 0)%Z
  | S754_finite sign m e =>
      let v := if sign then Z.neg m else Z.pos m in
      if (0 <=? e)%Z then (n =? v * 2 ^ e)%Z else (n * 2 ^ (- e) =? v)%Z
  | _ => false
  end.

Definition float_mean (l : list float) : float :=
  PrimFloat.div (fold_right PrimFloat.add 0 l) (float_of_Z (Z.of_nat (length l))).

(** [frame * hop_length / sr] *)
Definition demo_frames_to_time (sr hop_length frame : Z) : float :=
  PrimFloat.div (float_of_Z (frame * hop_length)) (float_of_Z sr).

Definition demo_playlist (w : nat) (url : string) : nat * option playlist :=
  (S w,
   if String.eqb url "sets/one"
   then Some {| pl_title := "One"; pl_username := "dj"; pl_tracks := ["u1"; "u9"; "u2"] |}
   else None).

Definition demo_track (w : nat) (url : string) : nat * option track_info :=
  (S w,
   if String.eqb url "u1"
   then Some {| t_title := "Tone"; t_username := "dj"; t_permalink_url := "u1";
                t_duration := 5000; t_genre := Some "House" |}
   else if String.eqb url "u2"
   then Some {| t_title := "Silence"; t_username := "dj"; t_permalink_url := "u2";
                t_duration := 4000; t_genre := None |}
   else None).

Definition demo_stream_url (w : nat) (url : value float) : nat * option (option string) :=
  (S w,
   match url with
   | VStr u =>
       if String.eqb u "u1" || String.eqb u "u2" || String.eqb u "u3"
       then Some (Some ("cdn/" ++ u)%string)
       else None
   | _ => None
   end).

Definition demo_get (w : nat) (url : string) : nat * option (Z * string) :=
  (S w,
   if String.eqb url "cdn/u1" then Some (200%Z, "tone")
   else if String.eqb url "cdn/u2" then Some (200%Z, "silence")
   else if String.eqb url "cdn/u3" then Some (404%Z, "")
   else None).

Definition demo_load (content : string) : option (string * Z) :=
  if String.eqb content "tone" || String.eqb content "silence"
  then Some (content, 22050%Z) else None.

Definition demo_beat_track (y : string) (sr : Z) : option (float * list Z) :=
  if String.eqb y "tone" then Some (120, [10; 31; 53; 74; 96]%Z) else Some (0, []).

(** The tone is an A: the tenth pitch class has the largest energy. *)
Definition demo_chroma_cqt (y : string) (sr : Z) : option (list (list float)) :=
  if String.eqb y "tone"
  then Some [[0.125; 0.25]; [0.125; 0.125]; [0.25; 0.25]; [0.125; 0.125];
             [0.375; 0.125]; [0.125; 0.125]; [0.125; 0.125]; [0.25; 0.125];
             [0.125; 0.125]; [1; 0.875]; [0.125; 0.125]; [0.25; 0.5]]
  else Some [[0]; [0]; [0]; [0]; [0]; [0]; [0]; [0]; [0]; [0]; [0]; [0]].

Definition demo_mfcc (y : string) (sr : Z) : option unit := Some tt.

Definition demo_agglomerative (m : unit) (k : Z) : option (list Z) :=
  Some [0; 2; 4; 40]%Z.

Definition demo_rms (y : string) (frame_length hop_length : Z) : option (list float) :=
  if String.eqb y "tone" then Some [0.5; 0.25; 0.25; 0.75; 0.5; 0.25] else Some [0].

Definition demo_state (files : gmap string (file float)) : state float nat :=
  {| world := 0%nat; fs := files; log := [] |}.

Definition demo_url_collection : list string -> string -> M float nat unit :=
  url_collection float PrimFloat.eqb float_eq_int nat demo_playlist demo_track.

Definition demo_process_songs : string -> string -> M float nat unit :=
  process_songs float PrimFloat.leb PrimFloat.eqb float_eq_int 0 float_mean
    string demo_beat_track demo_chroma_cqt string nat demo_stream_url demo_get demo_load.

Definition demo_analyze_songs : string -> string -> M float nat unit :=
  analyze_songs float PrimFloat.leb PrimFloat.ltb PrimFloat.eqb 0 float_mean
    string unit demo_beat_track demo_mfcc demo_agglomerative demo_rms demo_frames_to_time
    string nat demo_stream_url demo_get demo_load.

(** A record that went through stages 1, 2 and 3. *)
Definition demo_done_record : record float :=
  [("title", VStr "Tone"); ("artist", VStr "dj"); ("track_url", VStr "u1");
   ("duration", VInt 5000); ("genre", VStr "House");
   ("bpm", VFloat 120); ("key", VStr "A");
   ("features", VDict [("energy", VList []);
                       ("rhythm", VDict [("tempo", VFloat 120); ("beat_times", VList [])]);
                       ("structure", VDict [("sections", VList []); ("bars", VList [])])])].

(** A record fresh from stage 1. *)
Definition demo_new_record (url : string) : record float :=
  [("title", VStr "Untitled"); ("artist", VStr "dj"); ("track_url", VStr url);
   ("duration", VInt 4000); ("genre", VNone)].

(** The requests for audio of a log, in order. *)
Definition gets {F : Type} (l : list (event F)) : list string :=
  omap (fun e => match e with EGet u => Some u | _ => None end) l.

(** * The properties on the scripted world *)

(** ** C1 *)

(** A store saved after stages 2 and 3 completed on its only record. *)
Definition demo_saved : state float nat :=
  demo_state {[ "songs.json" := Json [demo_done_record] ]}.

(** C1 fails as stated: the only record of the saved file carries [bpm],
    [key] and [features], and a second run of stage 2, and of stage 3,
    resolves its URL and fetches its audio again. *)
Lemma rerun_refetches_completed_record :
  dict_has "bpm" demo_done_record = true /\
  dict_has "key" demo_done_record = true /\
  dict_has "features" demo_done_record = true /\
  resolves (log (snd (demo_process_songs "songs.json" "songs.json" demo_saved)))
    = [VStr "u1"] /\
  gets (log (snd (demo_process_songs "songs.json" "songs.json" demo_saved))) = ["cdn/u1"] /\
  resolves (log (snd (demo_analyze_songs "songs.json" "songs.json" demo_saved)))
    = [VStr "u1"] /\
  gets (log (snd (demo_analyze_songs "songs.json" "songs.json" demo_saved))) = ["cdn/u1"].
Proof. vm_compute. repeat split; reflexivity. Qed.

Definition demo_two_songs : state float nat :=
  demo_state {[ "songs.json" := Json [demo_done_record; demo_new_record "u2"] ]}.

Lemma rerun_resolves_every_record_witness :
  exists s',
    demo_analyze_songs "songs.json" "songs.json" demo_two_songs = (Done tt, s') /\
    resolves (log s') = [VStr "u1"; VStr "u2"].
Proof.
  destruct (rerun_resolves_every_record float PrimFloat.leb PrimFloat.ltb PrimFloat.eqb
              float_eq_int 0 float_mean string unit demo_beat_track demo_chroma_cqt
              demo_mfcc demo_agglomerative demo_rms demo_frames_to_time string nat
              demo_stream_url demo_get demo_load "songs.json" "songs.json"
              [demo_done_record; demo_new_record "u2"] demo_two_songs)
    as [(s' & Hrun & Hres & _) _].
  - vm_compute. reflexivity.
  - exists s'. split; [exact Hrun|]. rewrite Hres. vm_compute. reflexivity.
Defined.

(** ** C2 *)

Definition demo_tone : track_info :=
  {| t_title := "Tone"; t_username := "dj"; t_permalink_url := "u1";
     t_duration := 5000; t_genre := Some "House" |}.

(** The same track after the service retitled it. *)
Definition demo_tone_retitled : track_info :=
  {| t_title := "Tone (remaster)"; t_username := "dj"; t_permalink_url := "u1";
     t_duration := 5000; t_genre := Some "House" |}.

Lemma merge_insert_semantics_witness :
  merge_insert float PrimFloat.eqb float_eq_int
    [new_track float demo_tone] (new_track float demo_tone_retitled)
  = [new_track float demo_tone; new_track float demo_tone_retitled].
Proof.
  apply (proj2 (proj2 (proj2 (merge_insert_semantics float PrimFloat.eqb float_eq_int
           [new_track float demo_tone] (new_track float demo_tone_retitled))))).
  intros r Hin. apply list_elem_of_singleton in Hin. subst r.
  exists "title", (VStr "Tone"), (VStr "Tone (remaster)").
  repeat split; reflexivity.
Defined.

(** ** C4 *)

Definition Z_mean (l : list Z) : Z := (fold_right Z.add 0 l / Z.of_nat (length l))%Z.

Definition demo_chroma_Z : list (list Z) :=
  [[1; 3]; [1; 1]; [2; 2]; [1; 1]; [3; 1]; [1; 1];
   [1; 1]; [2; 1]; [1; 1]; [9; 7]; [8; 8]; [2; 4]]%Z.

Lemma key_estimation_witness :
  estimate_key Z Z.leb Z_mean demo_chroma_Z = Some "A" /\
  first_maximum Z Z.leb (map Z_mean demo_chroma_Z) 9.
Proof.
  destruct (key_estimation Z Z.leb Z_mean demo_chroma_Z) as [Hreturns Hlabel].
  destruct (Hreturns eq_refl) as [label Hkey].
  destruct (Hlabel label Hkey) as (_ & i & _ & Harg & _ & Hmax).
  vm_compute in Harg. injection Harg as <-. split; [reflexivity|].
  apply Hmax.
  - intros x y z. rewrite !Z.leb_le. lia.
  - intros x y _ _. rewrite !Z.leb_le. lia.
  - repeat constructor.
Defined.

(** ** C5, C10 *)

Definition demo_sections : list float :=
  map (demo_frames_to_time 22050 512) [0; 2; 4; 40]%Z.

Definition demo_energy : option (list (float * float)) :=
  extract_energy_by_section float PrimFloat.leb PrimFloat.ltb 0 float_mean string
    demo_rms demo_frames_to_time "tone" 22050 demo_sections 2048 512.

Lemma energy_by_section_entries_witness :
  exists out, demo_energy = Some out /\ length out = 4%nat /\ map fst out = demo_sections.
Proof.
  destruct (energy_by_section_entries float PrimFloat.leb PrimFloat.ltb 0 float_mean string
              demo_rms demo_frames_to_time "tone" 22050 demo_sections 2048 512
              [0.5; 0.25; 0.25; 0.75; 0.5; 0.25] eq_refl ltac:(discriminate))
    as (out & Hout & Hlen & Hfst & _).
  exists out. split; [exact Hout|]. split; [exact Hlen|exact Hfst].
Defined.

Lemma empty_section_energy_zero_witness :
  exists out,
    demo_energy = Some out /\
    out !! 3%nat = Some (demo_frames_to_time 22050 512 40, 0).
Proof.
  destruct (empty_section_energy_zero float PrimFloat.leb PrimFloat.ltb 0 float_mean string
              demo_rms demo_frames_to_time "tone" 22050 demo_sections 2048 512
              [0.5; 0.25; 0.25; 0.75; 0.5; 0.25] eq_refl ltac:(discriminate))
    as (out & Hout & Hzero).
  exists out. split; [exact Hout|].
  apply (Hzero 3%nat _ (demo_frames_to_time 22050 512 5)).
  - reflexivity.
  - vm_compute. reflexivity.
  - intros j Hj.
    do 6 (destruct j as [|j]; [vm_compute; reflexivity|]).
    simpl in Hj. lia.
Defined.

(** ** C8 *)

(** C8 fails as stated: five beats give a bar of four beats and a bar of
    one beat. *)
Lemma bars_of_five_beats :
  option_map (fun s => map length (bars s))
    (extract_structure float string unit demo_beat_track demo_mfcc demo_agglomerative
       demo_frames_to_time "tone" 22050 4)
  = Some [4; 1]%nat.
Proof. vm_compute. reflexivity. Qed.

Lemma bar_grouping_witness :
  exists s groups,
    extract_structure float string unit demo_beat_track demo_mfcc demo_agglomerative
      demo_frames_to_time "tone" 22050 4 = Some s /\
    bars s = map (map (demo_frames_to_time 22050 512)) groups /\
    concat groups = [10; 31; 53; 74; 96]%Z.
Proof.
  destruct (bar_grouping float string unit demo_beat_track demo_mfcc demo_agglomerative
              demo_frames_to_time "tone" 22050 4 tt [0; 2; 4; 40]%Z 120
              [10; 31; 53; 74; 96]%Z eq_refl eq_refl eq_refl)
    as (s & groups & Hs & Hbars & Hconcat & _).
  exists s, groups. split; [exact Hs|]. split; [exact Hbars|exact Hconcat].
Defined.

(** ** C6 *)

Definition demo_process_song : string -> list (record float) -> nat ->
    M float nat (list (record float)) :=
  process_song float PrimFloat.leb PrimFloat.eqb 0 float_mean string demo_beat_track
    demo_chroma_cqt string nat demo_stream_url demo_get demo_load.

Definition demo_analyze_step : string -> nat -> list (record float) -> nat ->
    M float nat (list (record float)) :=
  analyze_step float PrimFloat.leb PrimFloat.ltb PrimFloat.eqb 0 float_mean string unit
    demo_beat_track demo_mfcc demo_agglomerative demo_rms demo_frames_to_time
    string nat demo_stream_url demo_get demo_load.

(** The track [u3] answers 404: stage 3 skips it and writes nothing. *)
Lemma skip_and_continue_witness :
  exists s',
    demo_analyze_step "out.json" 1 [demo_new_record "u3"] 0 (demo_state ∅)
    = (Done [demo_new_record "u3"], s') /\
    fs s' = ∅.
Proof.
  destruct (skip_and_continue float PrimFloat.leb PrimFloat.ltb PrimFloat.eqb
              float_eq_int 0 float_mean string unit demo_beat_track demo_chroma_cqt
              demo_mfcc demo_agglomerative demo_rms demo_frames_to_time string nat
              demo_playlist demo_track demo_stream_url demo_get demo_load
              "out.json" 1%nat (demo_state ∅))
    as (_ & _ & Hsong & _).
  destruct (Hsong [demo_new_record "u3"] 0%nat (demo_new_record "u3") eq_refl)
    as [_ Hfetch].
  destruct (Hfetch "cdn/u3" eq_refl) as [_ Hdeep].
  apply Hdeep. left. discriminate.
Defined.

(** The output file of an earlier run beside a fresh input file. *)
Definition demo_earlier_output : state float nat :=
  demo_state {[ "songs.json" := Json [demo_new_record "u3"];
                "out.json" := Json [demo_done_record] ]}.

(** C6 fails as stated: [out.json] holds the analyzed record of an
    earlier run; the fetch for the only record of [songs.json] answers
    404, stage 2 returns, and [out.json] then holds the list in memory
    instead of what was saved. *)
Lemma failed_fetch_overwrites_output :
  fs demo_earlier_output !! "out.json" = Some (Json [demo_done_record]) /\
  snd (demo_get 1 "cdn/u3") = Some (404%Z, "") /\
  fst (demo_process_songs "songs.json" "out.json" demo_earlier_output) = Done tt /\
  gets (log (snd (demo_process_songs "songs.json" "out.json" demo_earlier_output)))
  = ["cdn/u3"] /\
  fs (snd (demo_process_songs "songs.json" "out.json" demo_earlier_output)) !! "out.json"
  = Some (Json [demo_new_record "u3"]).
Proof. vm_compute. repeat split; reflexivity. Qed.

(** ** C7 *)

Lemma store_load_semantics_witness :
  demo_url_collection ["sets/one"] "all.json" (demo_state {[ "all.json" := Malformed ]})
  = (Raised JSONDecodeError, demo_state {[ "all.json" := Malformed ]}) /\
  demo_process_songs "all.json" "out.json" (demo_state {[ "all.json" := Malformed ]})
  = (Done tt, emit float nat (EPrint (MsgDecodeError float "all.json"))
                (demo_state {[ "all.json" := Malformed ]})).
Proof.
  destruct (store_load_semantics float PrimFloat.leb PrimFloat.ltb PrimFloat.eqb
              float_eq_int 0 float_mean string unit demo_beat_track demo_chroma_cqt
              demo_mfcc demo_agglomerative demo_rms demo_frames_to_time string nat
              demo_playlist demo_track demo_stream_url demo_get demo_load
              ["sets/one"] "all.json" "all.json"
              (demo_state {[ "all.json" := Malformed ]}))
    as (_ & _ & Hbad & _).
  destruct (store_load_semantics float PrimFloat.leb PrimFloat.ltb PrimFloat.eqb
              float_eq_int 0 float_mean string unit demo_beat_track demo_chroma_cqt
              demo_mfcc demo_agglomerative demo_rms demo_frames_to_time string nat
              demo_playlist demo_track demo_stream_url demo_get demo_load
              ["sets/one"] "all.json" "out.json"
              (demo_state {[ "all.json" := Malformed ]}))
    as (_ & _ & _ & Hstage & _).
  split.
  - apply Hbad. vm_compute. reflexivity.
  - apply (Hstage _ ltac:(left)). vm_compute. reflexivity.
Defined.

(** ** C9 *)

(** The track [u2] streams silence: the analysis returns the key C with
    the tempo 0.0, and stage 2 saves the record as it was. *)
Lemma zero_tempo_not_attached_witness :
  exists s',
    demo_process_song "out.json" [demo_new_record "u2"] 0 (demo_state ∅)
    = (Done [demo_new_record "u2"], s') /\
    fs s' !! "out.json" = Some (Json [demo_new_record "u2"]).
Proof.
  destruct (zero_tempo_not_attached float PrimFloat.leb PrimFloat.eqb 0 float_mean string
              demo_beat_track demo_chroma_cqt string nat demo_stream_url demo_get demo_load
              "out.json" [demo_new_record "u2"] 0%nat (demo_new_record "u2") (demo_state ∅)
              "cdn/u2" "silence" 0 "C"
              eq_refl eq_refl eq_refl ltac:(discriminate) eq_refl eq_refl eq_refl)
    as [(s' & Hrun & _ & _ & Hfile & _) _].
  exists s'. split; [exact Hrun|exact Hfile].
Defined.

(** * The further properties on the scripted world *)

(** ** Stage 1 *)

(** A first run on the playlist [sets/one] creates the store and fills it
    with records built from resolved tracks. *)
Lemma url_collection_appends_witness :
  exists s' added,
    demo_url_collection ["sets/one"] "all.json" (demo_state ∅) = (Done tt, s') /\
    Forall (built_by_stage1 float) added /\
    fs s' = <["all.json" := Json ([] ++ added)]> ∅.
Proof.
  destruct (url_collection_appends float PrimFloat.eqb float_eq_int nat demo_playlist
              demo_track ["sets/one"] "all.json" (demo_state ∅))
    as (s' & added & Hrun & Hbuilt & Hfs).
  - vm_compute. discriminate.
  - exists s', added. split; [exact Hrun|]. split; [exact Hbuilt|exact Hfs].
Defined.

(** A store that holds the tone and an untitled track. *)
Definition demo_store : list (record float) :=
  [new_track float demo_tone; demo_new_record "u7"].

Lemma url_collection_no_duplicates_witness :
  (exists s' final,
     demo_url_collection ["sets/one"] "all.json" (demo_state ∅) = (Done tt, s') /\
     fs s' !! "all.json" = Some (Json final) /\
     no_duplicates float PrimFloat.eqb float_eq_int final) /\
  (exists s' final,
     demo_url_collection ["sets/one"] "all.json"
       (demo_state {[ "all.json" := Json demo_store ]}) = (Done tt, s') /\
     fs s' !! "all.json" = Some (Json final) /\
     no_duplicates float PrimFloat.eqb float_eq_int final).
Proof.
  split.
  - apply (url_collection_no_duplicates float PrimFloat.eqb float_eq_int nat demo_playlist
             demo_track ["sets/one"] "all.json" (demo_state ∅)).
    + vm_compute. discriminate.
    + intros loaded Hfile. vm_compute in Hfile. discriminate.
  - apply (url_collection_no_duplicates float PrimFloat.eqb float_eq_int nat demo_playlist
             demo_track ["sets/one"] "all.json"
             (demo_state {[ "all.json" := Json demo_store ]})).
    + vm_compute. discriminate.
    + intros loaded Hfile. vm_compute in Hfile. injection Hfile as <-.
      intros i j ri rj Hlt Hi Hj.
      destruct i as [|[|i]], j as [|[|j]]; try lia; try discriminate.
      injection Hi as <-. injection Hj as <-. vm_compute. reflexivity.
Defined.

(** ** Stage 2 *)


(** A record whose genre is a list of two genres. *)
Definition demo_two_genres : record float :=
  [("title", VStr "Both"); ("artist", VStr "dj"); ("track_url", VStr "u1");
   ("duration", VInt 5000); ("genre", VList [VStr "House"; VStr "Techno"])].

Lemma process_songs_unhashable_genre_witness :
  demo_process_songs "songs.json" "out.json"
    (demo_state {[ "songs.json" := Json [demo_new_record "u2"; demo_two_genres] ]})
  = (Raised TypeError,
     demo_state {[ "songs.json" := Json [demo_new_record "u2"; demo_two_genres] ]}).
Proof.
  apply (process_songs_unhashable_genre float PrimFloat.leb PrimFloat.eqb float_eq_int 0
           float_mean string demo_beat_track demo_chroma_cqt string nat demo_stream_url
           demo_get demo_load "songs.json" "out.json"
           [demo_new_record "u2"; demo_two_genres] demo_two_genres).
  - vm_compute. reflexivity.
  - apply elem_of_cons. right. apply elem_of_cons. left. reflexivity.
  - reflexivity.
Defined.

Lemma process_songs_pacing_witness :
  exists s' n,
    demo_process_songs "songs.json" "out.json" demo_two_songs = (Done tt, s') /\
    length (fetched float (log s')) = n /\
    written float (log s') = replicate n "out.json" /\
    pauses float (log s') = replicate n 1%Z /\
    (n <= length (resolves (log s')))%nat.
Proof.
  apply (process_songs_pacing float PrimFloat.leb PrimFloat.eqb float_eq_int 0 float_mean
           string demo_beat_track demo_chroma_cqt string nat demo_stream_url demo_get
           demo_load "songs.json" "out.json" [demo_done_record; demo_new_record "u2"]).
  - vm_compute. reflexivity.
  - repeat constructor.
Defined.

(** The cleanup of the two songs in place keeps the analyzed one. *)
Lemma clean_in_place_witness :
  exists s1 s2,
    clean_analyzed_songs float nat "songs.json" "songs.json" demo_two_songs = (Done tt, s1) /\
    fs s1 = <["songs.json" := Json [demo_done_record]]> (fs demo_two_songs) /\
    clean_analyzed_songs float nat "songs.json" "songs.json" s1 = (Done tt, s2) /\
    fs s2 = fs s1.
Proof.
  apply (clean_in_place float PrimFloat.eqb 0 nat "songs.json"
           [demo_done_record; demo_new_record "u2"] demo_two_songs).
  vm_compute. reflexivity.
Defined.

(** ** Stage 3 *)

(** With the six frames of the tone and one section from the start, the
    energy is the average of the first five frames. *)
Lemma last_frame_not_counted_witness :
  exists out,
    extract_energy_by_section float PrimFloat.leb PrimFloat.ltb 0 float_mean string
      demo_rms demo_frames_to_time "tone" 22050 [demo_frames_to_time 22050 512 0] 2048 512
    = Some out /\
    last out
    = Some (demo_frames_to_time 22050 512 0, float_mean [0.5; 0.25; 0.25; 0.75; 0.5]).
Proof.
  destruct (last_frame_not_counted float PrimFloat.leb PrimFloat.ltb 0 float_mean string
              demo_rms demo_frames_to_time "tone" 22050 [] (demo_frames_to_time 22050 512 0)
              2048 512 [0.5; 0.25; 0.25; 0.75; 0.5] 0.25)
    as (out & Hout & Hlast & _).
  - reflexivity.
  - vm_compute. reflexivity.
  - exists out. split; [exact Hout|]. rewrite Hlast. vm_compute. reflexivity.
Defined.

Definition demo_three_songs : state float nat :=
  demo_state {[ "songs.json" :=
                  Json [demo_new_record "u1"; demo_new_record "u3"; demo_new_record "u9"] ]}.

Lemma analyze_songs_output_witness :
  exists s',
    demo_analyze_songs "songs.json" "out.json" demo_three_songs = (Done tt, s') /\
    (fs s' = fs demo_three_songs \/
     exists final,
       fs s' = <["out.json" := Json final]> (fs demo_three_songs) /\
       same_except float ["features"]
         [demo_new_record "u1"; demo_new_record "u3"; demo_new_record "u9"] final /\
       forall i r',
         final !! i = Some r' ->
         [demo_new_record "u1"; demo_new_record "u3"; demo_new_record "u9"] !! i = Some r' \/
         featured float r').
Proof.
  apply (analyze_songs_output float PrimFloat.leb PrimFloat.ltb PrimFloat.eqb 0 float_mean
           string unit demo_beat_track demo_mfcc demo_agglomerative demo_rms
           demo_frames_to_time string nat demo_stream_url demo_get demo_load
           "songs.json" "out.json").
  vm_compute. reflexivity.
Defined.

(** Of the three songs the first is analyzed, the fetch of the second
    answers 404 and the third does not resolve: two fetches, one save and
    one sleep. *)
Lemma analyze_songs_pacing_witness :
  exists s',
    demo_analyze_songs "songs.json" "out.json" demo_three_songs = (Done tt, s') /\
    length (fetched float (log s')) = 2%nat /\
    written float (log s') = ["out.json"] /\
    pauses float (log s') = [1%Z].
Proof.
  assert (fs demo_three_songs !! "songs.json"
          = Some (Json [demo_new_record "u1"; demo_new_record "u3"; demo_new_record "u9"]))
    as Hfile by (vm_compute; reflexivity).
  destruct (analyze_songs_pacing float PrimFloat.leb PrimFloat.ltb PrimFloat.eqb 0
              float_mean string unit demo_beat_track demo_mfcc demo_agglomerative demo_rms
              demo_frames_to_time string nat demo_stream_url demo_get demo_load
              "songs.json" "out.json"
              [demo_new_record "u1"; demo_new_record "u3"; demo_new_record "u9"]
              demo_three_songs Hfile)
    as (s' & Hrun & Hf & Hw & Hp & _).
  exists s'. split; [exact Hrun|].
  rewrite Hf, Hw, Hp. vm_compute. repeat split; reflexivity.
Defined.

(** ** Stage 1 and the chain of the cleanup and stage 3 *)

(** A first run on a playlist that resolves and one that does not. *)
Lemma url_collection_effects_witness :
  exists s' n k,
    demo_url_collection ["sets/one"; "sets/none"] "all.json" (demo_state ∅) = (Done tt, s') /\
    (n <= 2)%nat /\
    length (resolves (log s')) = (2 + k)%nat /\
    written float (log s') = "all.json" :: replicate n "all.json" /\
    pauses float (log s') = [] /\
    fetched float (log s') = [].
Proof.
  destruct (url_collection_effects float PrimFloat.eqb float_eq_int nat demo_playlist
              demo_track ["sets/one"; "sets/none"] "all.json" (demo_state ∅))
    as (s' & n & k & Hrun & Hle & _ & Hres & Hw & Hp & Hf).
  - vm_compute. discriminate.
  - exists s', n, k. split; [exact Hrun|]. split; [exact Hle|]. split; [exact Hres|].
    split; [exact Hw|]. split; [exact Hp|exact Hf].
Defined.

Lemma clean_then_analyze_witness :
  exists s1 s2,
    clean_analyzed_songs float nat "songs.json" "cleaned.json" demo_two_songs
    = (Done tt, s1) /\
    fs s1 = <["cleaned.json" := Json [demo_done_record]]> (fs demo_two_songs) /\
    demo_analyze_songs "cleaned.json" "deep.json" s1 = (Done tt, s2) /\
    (fs s2 = fs s1 \/
     exists final,
       fs s2 = <["deep.json" := Json final]> (fs s1) /\
       same_except float ["features"] [demo_done_record] final /\
       Forall (fun r => missing_bpm_or_key float r = false) final).
Proof.
  apply (clean_then_analyze float PrimFloat.leb PrimFloat.ltb PrimFloat.eqb 0 float_mean
           string unit demo_beat_track demo_mfcc demo_agglomerative demo_rms
           demo_frames_to_time string nat demo_stream_url demo_get demo_load
           "songs.json" "cleaned.json" "deep.json"
           [demo_done_record; demo_new_record "u2"] demo_two_songs).
  vm_compute. reflexivity.
Defined.
